(** * Verification model of [src/main.py] (fuzzy-hashing forensic tool)

    Shallow embedding of the traversal-and-matching pipeline:
    [img_similarity_check], [is_image_similar], [traverse_file_entries],
    [find_similar_images] and the final report of [__main__], and of the
    command-line handling of [__main__] ([getopt.getopt], [int()] and the
    option loop).

    The external collaborators (dfvfs, PIL, numpy) are modelled at the
    level the program observes them:
    - a decoded PIL image is a grid of rows of pixels, each pixel a list of
      band samples, with the PIL storage type of its samples;
    - [Image.open] is lazy: it identifies the header (or raises) and the
      pixel data is decoded at the first [load()], which may raise;
    - [ImageChops.difference] follows Pillow's [Chops.c]: both images are
      loaded, non 8-bit storage raises a mode error, differing types or band
      counts raise "images do not match", and the output has the minimum
      width and height of the two inputs;
    - [np.mean] is the exact mean of all samples (NaN for an empty array);
    - Python's mutable [result] dict is part of the threaded state, so its
      mutations survive a raised exception, as in the source. *)

From Stdlib Require Import String Ascii List ZArith QArith Bool Lia.
Import ListNotations.

Local Open Scope Z_scope.
Set Warnings "-register-all".


(** ** Values *)

(** Python float as produced by [np.mean]: a number or NaN. *)
Inductive pyfloat := Num (q : Q) | NaN.

(** [x < t] for a Python float against the integer threshold
    ([int(arg)] in [__main__]); NaN compares false. *)
Definition py_lt (x : pyfloat) (t : Z) : bool :=
  match x with
  | Num q => Z.ltb (Qnum q) (t * Zpos (Qden q))
  | NaN => false
  end.

(** Pillow storage types of an image's samples. *)
Inductive pixel_type := UINT8 | INT32 | FLOAT32 | SPECIAL.

Definition pixel_type_eqb (a b : pixel_type) : bool :=
  match a, b with
  | UINT8, UINT8 | INT32, INT32 | FLOAT32, FLOAT32 | SPECIAL, SPECIAL => true
  | _, _ => false
  end.

(** A decoded image: storage type, number of bands, rows of pixels. *)
Record image := mkImage {
  im_type : pixel_type;
  im_bands : nat;
  im_rows : list (list (list Z))
}.

Definition im_height (im : image) : nat := length (im_rows im).
Definition im_width (im : image) : nat :=
  match im_rows im with [] => 0%nat | r :: _ => length r end.

(** Images as a decoder produces them: positive size, rectangular, every
    pixel with [im_bands] samples, 8-bit sample values. *)
Definition wf_image (im : image) : Prop :=
  (0 < im_bands im)%nat /\ (0 < im_height im)%nat /\ (0 < im_width im)%nat /\
  Forall (fun r => length r = im_width im /\
     Forall (fun px => length px = im_bands im /\
        Forall (fun v => 0 <= v <= 255) px) r) (im_rows im).

(** A lazily opened PIL image: [None] when its pixel data fails to decode
    at [load()] time (corrupt or truncated stream). *)
Definition lazy_image := option image.

(** What [Image.open] does on some bytes or file: raise (unidentified or
    unreadable), or return a lazy image. *)
Inductive open_result := OpenFails | Opened (pixels : lazy_image).

(** Python exceptions raised in the modelled code. *)
Inductive exn :=
  | ModeError | Mismatch | LoadError | UnidentifiedImage | KeyError
  | SaveError | RecursionError | FileSystemError | ListDirError | DfvfsError.

(** ** Strings *)

Definition ascii_lower (c : ascii) : ascii :=
  let n := nat_of_ascii c in
  if (Nat.leb 65 n && Nat.leb n 90)%bool then ascii_of_nat (n + 32) else c.

(** [str.lower] on ASCII strings. *)
Fixpoint lower (s : string) : string :=
  match s with
  | EmptyString => EmptyString
  | String c s' => String (ascii_lower c) (lower s')
  end.

(** [str.endswith] with one suffix. *)
Definition endswith (s suf : string) : bool :=
  let n := String.length s in
  let m := String.length suf in
  (Nat.leb m n && String.eqb (substring (n - m) m s) suf)%bool.

(** Index of the last occurrence of [c] in [s], -1 if none
    ([str.rfind]). *)
Fixpoint rfind_aux (c : ascii) (s : string) (i : Z) (acc : Z) : Z :=
  match s with
  | EmptyString => acc
  | String d s' =>
      rfind_aux c s' (i + 1) (if Ascii.eqb c d then i else acc)
  end.
Definition rfind (c : ascii) (s : string) : Z := rfind_aux c s 0 (-1).

Definition char_at (s : string) (i : Z) : option ascii :=
  String.get (Z.to_nat i) s.

(** [os.path.splitext(p)[1]] for POSIX paths ([genericpath._splitext]
    with sep '/', no altsep, extsep '.'): the extension starts at the
    last dot after the last separator, provided some non-dot character of
    the base name precedes that dot. *)
Definition splitext_ext (p : string) : string :=
  let sepIndex := rfind "/"%char p in
  let dotIndex := rfind "."%char p in
  if Z.ltb sepIndex dotIndex then
    let fix scan (fuel : nat) (i : Z) : bool :=
      match fuel with
      | O => false
      | S f =>
          if Z.ltb i dotIndex then
            match char_at p i with
            | Some c => if Ascii.eqb c "."%char then scan f (i + 1) else true
            | None => false
            end
          else false
      end in
    if scan (String.length p) (sepIndex + 1)
    then substring (Z.to_nat dotIndex) (String.length p - Z.to_nat dotIndex) p
    else ""%string
  else ""%string.

(** [os.path.join(a, b)] (POSIX, two components). *)
Definition os_path_join (a b : string) : string :=
  if String.prefix "/" b then b
  else if String.eqb a "" then b
  else if endswith a "/" then (a ++ b)%string
  else (a ++ "/" ++ b)%string.

Definition valid_image_extensions : list string :=
  [".jpg"; ".jpeg"; ".png"; ".bmp"; ".gif"; ".tiff"]%string.

(** [filename.lower().endswith(('.jpg', ..., '.tiff'))]
    (reference-folder filter of [find_similar_images]). *)
Definition is_reference_name (filename : string) : bool :=
  existsb (endswith (lower filename)) valid_image_extensions.

(** [file_ext not in valid_image_extensions] test of [is_image_similar],
    negated. *)
Definition is_candidate_location (loc : string) : bool :=
  existsb (String.eqb (lower (splitext_ext loc))) valid_image_extensions.

(** ** Images: PIL difference and numpy mean *)

Fixpoint zip_with {A B C : Type} (f : A -> B -> C) (l1 : list A) (l2 : list B)
  : list C :=
  match l1, l2 with
  | a :: l1', b :: l2' => f a b :: zip_with f l1' l2'
  | _, _ => []
  end.

(** Saturation to 0..255 of the [CHOP] macro. *)
Definition clip8 (v : Z) : Z :=
  if Z.leb v 0 then 0 else if Z.leb 255 v then 255 else v.

(** Pillow [create] and [ImagingChopDifference]: mode checks, output of
    the minimum size, [abs(in1[x] - in2[x])] per sample. *)
Definition chop_difference (im1 im2 : image) : exn + image :=
  if negb (pixel_type_eqb (im_type im1) UINT8) then inl ModeError
  else if negb (pixel_type_eqb (im_type im1) (im_type im2)
                && Nat.eqb (im_bands im1) (im_bands im2))%bool
  then inl Mismatch
  else inr (mkImage (im_type im1) (im_bands im1)
              (zip_with (zip_with (zip_with (fun x y => clip8 (Z.abs (x - y)))))
                 (im_rows im1) (im_rows im2))).

Definition samples (im : image) : list Z := concat (concat (im_rows im)).

(** [np.mean(np.array(diff))]: mean over all pixels and channels, the
    samples being the integers [np.array] gives for the 8-bit modes such
    as "L" and "RGB"; a difference of mode "1" (which [np.array] turns
    into booleans) is outside the model. *)
Definition np_mean (im : image) : pyfloat :=
  let xs := samples im in
  match length xs with
  | O => NaN
  | S _ => Num (Qmake (fold_right Z.add 0 xs) (Pos.of_nat (length xs)))
  end.

(** ** State and exception monad

    The threaded state is the [result] dict (an insertion-ordered
    association list, as a Python dict iterates) and the program's
    output, plus a ghost trace of the entries handed to
    [is_image_similar]. A raised exception keeps the state reached so far. *)

Definition match_record := (string * pyfloat)%type.
Definition result_dict := list (string * list match_record).

Inductive event :=
  | Visit (location : string)            (* ghost: is_image_similar called *)
  | ParseCompleted | RefsLoaded | RootLoaded | StartScan
  | ErrLoading                              (* "Error while loading image" *)
  | SimilarFound                            (* "Similar image identified!" *)
  | ErrComparing (location : string)      (* "Error while comparing image" *)
  | FinalReport | NoSimilar
  | RefHeader (ref : string)
  | MatchLine (location : string) (diff : pyfloat).

Record state := mkState { st_result : result_dict; st_log : list event }.

Definition M (A : Type) := state -> (exn + A) * state.

Definition ret {A} (a : A) : M A := fun s => (inr a, s).
Definition bind {A B} (m : M A) (k : A -> M B) : M B :=
  fun s => match m s with
           | (inl e, s') => (inl e, s')
           | (inr a, s') => k a s'
           end.
Definition raise {A} (e : exn) : M A := fun s => (inl e, s).
Definition try_except {A} (m : M A) (h : exn -> M A) : M A :=
  fun s => match m s with
           | (inl e, s') => h e s'
           | r => r
           end.
Definition emit (ev : event) : M unit :=
  fun s => (inr tt, mkState (st_result s) (st_log s ++ [ev])).

Notation "x <- m ;; k" := (bind m (fun x => k))
  (at level 61, m at next level, right associativity).
Notation "' p <- m ;; k" := (bind m (fun x => match x with p => k end))
  (at level 61, p pattern, m at next level, right associativity).
Notation "m ;; k" := (bind m (fun _ => k))
  (at level 61, right associativity).

Fixpoint for_each {A} (l : list A) (body : A -> M unit) : M unit :=
  match l with
  | [] => ret tt
  | x :: l' => body x ;; for_each l' body
  end.

(** ** Dict operations *)

Fixpoint dict_lookup {V} (k : string) (d : list (string * V)) : option V :=
  match d with
  | [] => None
  | (k', v) :: d' => if String.eqb k k' then Some v else dict_lookup k d'
  end.

(** [d[k] = v]: replace in place, or insert at the end. *)
Fixpoint dict_set {V} (k : string) (v : V) (d : list (string * V))
  : list (string * V) :=
  match d with
  | [] => [(k, v)]
  | (k', v') :: d' =>
      if String.eqb k k' then (k', v) :: d' else (k', v') :: dict_set k v d'
  end.

(** [result[k] = []]. *)
Definition result_init (k : string) : M unit :=
  fun s => (inr tt, mkState (dict_set k [] (st_result s)) (st_log s)).

(** [result[k].append(x)]; [KeyError] on a missing key. *)
Definition result_append (k : string) (x : match_record) : M unit :=
  fun s => match dict_lookup k (st_result s) with
           | None => (inl KeyError, s)
           | Some l => (inr tt, mkState (dict_set k (l ++ [x]) (st_result s))
                                        (st_log s))
           end.

(** ** External collaborators *)

(** [Image.open(...)]. *)
Definition image_open (o : open_result) : M lazy_image :=
  match o with
  | OpenFails => raise UnidentifiedImage
  | Opened p => ret p
  end.

(** [im.load()]. *)
Definition load (p : lazy_image) : M image :=
  match p with
  | None => raise LoadError
  | Some im => ret im
  end.

(** [ImageChops.difference(image1, image2)]. *)
Definition image_difference (image1 image2 : lazy_image) : M image :=
  i1 <- load image1 ;;
  i2 <- load image2 ;;
  match chop_difference i1 i2 with
  | inl e => raise e
  | inr d => ret d
  end.

(** The environment of a run: what dfvfs's [OpenFileSystem] returns
    ([None]: it raises), what [os.listdir] of the reference folder returns
    together with what [Image.open] does on each listed file ([None]:
    listdir raises), whether [image.save(path)] succeeds, and a bound on
    the frames that a call below a frame of [traverse_file_entries] or of
    [is_image_similar] needs, other than [traverse_file_entries] and
    [is_image_similar] themselves: dfvfs's [IsDirectory()] and
    [sub_file_entries], [os.path.splitext], PIL, numpy and
    [traceback.format_exc] in the handler. A file entry is a leaf, a
    directory with its sub-entries, or an entry on which dfvfs raises
    while the traversal asks [IsDirectory()] or lists its sub-entries (a
    listing that fails part-way is a directory whose last sub-entry is such
    an entry). *)
Inductive FileEntry :=
  | FileE (name location : string) (file_object : option open_result)
  | DirE (name location : string) (sub_file_entries : list FileEntry)
  | UnreadableE (name location : string).

Record env := mkEnv {
  fs_root : option FileEntry;
  ref_listing : option (list (string * open_result));
  save_ok : string -> image -> bool;
  call_frames : nat
}.

(** [image.save(path)]: loads the image, then writes it. *)
Definition image_save (en : env) (path : string) (p : lazy_image) : M unit :=
  im <- load p ;;
  if save_ok en path im then ret tt else raise SaveError.

(** ** The program *)

Definition entry_name (e : FileEntry) : string :=
  match e with FileE n _ _ | DirE n _ _ | UnreadableE n _ => n end.
Definition entry_location (e : FileEntry) : string :=
  match e with FileE _ l _ | DirE _ l _ | UnreadableE _ l => l end.

(** [img_similarity_check(img1, img2, similarity_threshold)]. *)
Definition img_similarity_check (img1 img2 : lazy_image) (similarity_threshold : Z)
  : M (bool * pyfloat) :=
  diff <- image_difference img2 img1 ;;
  let mean_diff := np_mean diff in
  let is_similar := py_lt mean_diff similarity_threshold in
  ret (is_similar, mean_diff).

Definition reference_list := list (string * lazy_image).

(** Body of the loop over [reference_image_list.items()] in
    [is_image_similar]. *)
Definition compare_with_reference (en : env) (name location : string)
    (image : lazy_image) (similarity_threshold : Z) (output_folder : string)
    (reference : string * lazy_image) : M unit :=
  let '(reference_name, reference_image) := reference in
  '(is_similar, mean_diff) <- img_similarity_check image reference_image similarity_threshold ;;
  if is_similar then
    result_append reference_name (location, mean_diff) ;;
    emit SimilarFound ;;
    (if negb (String.eqb output_folder "")
     then image_save en (os_path_join output_folder name) image
     else ret tt)
  else ret tt.

(** [is_image_similar(file_entry, ...)] on a leaf entry: the whole body is
    inside one [try ... except Exception]. *)
Definition is_image_similar (en : env) (name location : string)
    (file_object : option open_result) (reference_image_list : reference_list)
    (similarity_threshold : Z) (output_folder : string) : M unit :=
  try_except
    (if negb (is_candidate_location location) then ret tt
     else match file_object with
          | None => ret tt
          | Some file_content =>
              image <- image_open file_content ;;
              for_each reference_image_list
                (compare_with_reference en name location image
                   similarity_threshold output_folder)
          end)
    (fun _ => emit (ErrComparing location)).

(** [traverse_file_entries]: Python recursion, [budget] being the number of
    frames left before the interpreter's recursion limit. Entering a call
    with no frame left raises [RecursionError] at the call site, outside
    any handler of the callee. Each frame first calls dfvfs
    ([IsDirectory()], then [sub_file_entries] for a directory); with fewer
    than [call_frames en] frames left that call is taken to overflow, and
    an error dfvfs raises on an unreadable entry escapes as well:
    [traverse_file_entries] has no handler. Below [is_image_similar] the
    model also lets an overflow escape before any effect, which is what
    happens when the handler's [traceback.format_exc] overflows as well
    (the real program may also overflow part-way or recover in the
    handler; the statements on traversal assume enough frames). *)
Fixpoint traverse_file_entries (en : env) (budget : nat) (file_entry : FileEntry)
    (reference_image_list : reference_list) (similarity_threshold : Z)
    (output_folder : string) {struct file_entry} : M unit :=
  match budget with
  | O => raise RecursionError
  | S b =>
      if Nat.ltb b (call_frames en) then raise RecursionError else
      match file_entry with
      | UnreadableE _ _ => raise DfvfsError
      | FileE name location file_object =>
          match b with
          | O => raise RecursionError
          | S b' =>
              emit (Visit location) ;;
              if Nat.ltb b' (call_frames en) then raise RecursionError
              else is_image_similar en name location file_object
                     reference_image_list similarity_threshold output_folder
          end
      | DirE _ _ sub_file_entries =>
          (fix go (l : list FileEntry) : M unit :=
             match l with
             | [] => ret tt
             | sub :: l' =>
                 traverse_file_entries en b sub reference_image_list
                   similarity_threshold output_folder ;;
                 go l'
             end) sub_file_entries
      end
  end.

(** CPython's default recursion limit, minus the frames of the module and
    of [find_similar_images] below the first [traverse_file_entries]. *)
Definition traverse_budget : nat := 998.

(** The loop over [os.listdir(reference_image_folder_path)] of
    [find_similar_images], [refs] being [reference_image_list]. *)
Fixpoint load_references (folder : string) (listing : list (string * open_result))
    (refs : reference_list) : M reference_list :=
  match listing with
  | [] => ret refs
  | (filename, file) :: listing' =>
      if is_reference_name filename then
        let file_path := os_path_join folder filename in
        image <- image_open file ;;
        result_init file_path ;;
        load_references folder listing' (dict_set file_path image refs)
      else load_references folder listing' refs
  end.

(** [find_similar_images(...)]; [None] stands for its [return False]. *)
Definition find_similar_images (en : env) (reference_image_folder_path : string)
    (similarity_threshold : Z) (output_folder : string) : M (option bool) :=
  file_system <- (match fs_root en with
                  | None => raise FileSystemError
                  | Some root => ret root
                  end) ;;
  emit ParseCompleted ;;
  loaded <- try_except
              (listing <- (match ref_listing en with
                           | None => raise ListDirError
                           | Some l => ret l
                           end) ;;
               refs <- load_references reference_image_folder_path listing [] ;;
               ret (Some refs))
              (fun _ => emit ErrLoading ;; ret None) ;;
  match loaded with
  | None => ret (Some false)
  | Some reference_image_list =>
      emit RefsLoaded ;;
      emit RootLoaded ;;
      emit StartScan ;;
      traverse_file_entries en traverse_budget file_system reference_image_list
        similarity_threshold output_folder ;;
      ret None
  end.

(** The report printed at the end of [__main__]. *)
Definition final_report (result : result_dict) : list event :=
  (if negb (Nat.eqb (length result) 0) then [FinalReport] else [NoSimilar]) ++
  concat (map (fun '(reference_image_name, similar_images) =>
                 if negb (Nat.eqb (length similar_images) 0)
                 then RefHeader reference_image_name ::
                      map (fun '(p, d) => MatchLine p d) similar_images
                 else [])
              result).

Record run_outcome := mkOutcome {
  exit_code : nat;
  output : list event;
  final_result : result_dict
}.

(** [__main__] after argument parsing: an exception escaping
    [find_similar_images] terminates the interpreter with exit code 1. *)
Definition main (en : env) (reference_image_folder_path : string)
    (similarity_threshold : Z) (output_folder : string) : run_outcome :=
  match find_similar_images en reference_image_folder_path similarity_threshold
          output_folder (mkState [] []) with
  | (inl _, s) => mkOutcome 1 (st_log s) (st_result s)
  | (inr _, s) => mkOutcome 0 (st_log s ++ final_report (st_result s)) (st_result s)
  end.

(** ** Command line: [print_usage], [getopt.getopt] and the option loop
    of [__main__] *)

Local Open Scope string_scope.

(** Lines that [__main__] prints before it would call
    [find_similar_images]: [print_usage()], which shows [sys.argv[0]],
    and "missing required parameters.". *)
Inductive cli_line := Usage (prog : string) | MissingParams.

(** [getopt.short_has_arg(opt, shortopts)]: [None] when no non-colon
    character of [shortopts] is [opt] ([GetoptError]). *)
Fixpoint short_has_arg (opt : ascii) (shortopts : string) : option bool :=
  match shortopts with
  | EmptyString => None
  | String c rest =>
      if (Ascii.eqb opt c && negb (Ascii.eqb c ":"%char))%bool
      then Some (String.prefix ":" rest)
      else short_has_arg opt rest
  end.

(** [getopt.do_shorts(opts, optstring, shortopts, args)]; [None] when it
    raises [GetoptError]. *)
Fixpoint do_shorts (shortopts : string) (opts : list (string * string))
    (optstring : string) (args : list string)
  : option (list (string * string) * list string) :=
  match optstring with
  | EmptyString => Some (opts, args)
  | String opt optstring' =>
      match short_has_arg opt shortopts with
      | None => None
      | Some true =>
          if String.eqb optstring' "" then
            match args with
            | [] => None
            | a :: args' => Some (opts ++ [(String "-" (String opt ""), a)], args')%list
            end
          else Some (opts ++ [(String "-" (String opt ""), optstring')], args)%list
      | Some false =>
          do_shorts shortopts (opts ++ [(String "-" (String opt ""), "")])%list
            optstring' args
      end
  end.

(** [s[1:]]. *)
Definition str_tail (s : string) : string :=
  match s with EmptyString => EmptyString | String _ s' => s' end.

(** The [while] loop of [getopt.getopt(args, shortopts)] with no long
    option declared ([longopts = []]): [do_longs] then raises for every
    [--name] argument, no long option matching it. Every iteration
    consumes an argument at least, so [length args] iterations suffice
    and [fuel] never runs out while arguments remain. *)
Fixpoint getopt_loop (shortopts : string) (fuel : nat) (opts : list (string * string))
    (args : list string) : option (list (string * string) * list string) :=
  match fuel with
  | O => Some (opts, args)
  | S fuel' =>
      match args with
      | a :: args' =>
          if (String.prefix "-" a && negb (String.eqb a "-"))%bool then
            if String.eqb a "--" then Some (opts, args')
            else if String.prefix "--" a then None
            else match do_shorts shortopts opts (str_tail a) args' with
                 | None => None
                 | Some (opts', args'') => getopt_loop shortopts fuel' opts' args''
                 end
          else Some (opts, args)
      | [] => Some (opts, args)
      end
  end.

(** [getopt.getopt(args, shortopts)]; [None]: [GetoptError]. *)
Definition getopt (args : list string) (shortopts : string)
  : option (list (string * string) * list string) :=
  getopt_loop shortopts (length args) [] args.

(** [x in s] for two strings: [x] is a substring of [s] (the tests
    [opt in ("-d")] of [__main__] are on the string ["-d"], not on a
    tuple). *)
Definition str_in (x s : string) : bool :=
  match String.index 0 x s with Some _ => true | None => false end.

(** [int(arg)] on a string, its characters read as Latin-1 code points
    ([None]: [ValueError]). CPython skips leading and trailing whitespace,
    reads an optional sign and base-10 digits in which single underscores
    may separate digits, and refuses more than
    [sys.get_int_max_str_digits()] (4300 by default) digits. The
    whitespace is [Py_ISSPACE] (tab to carriage return, and space): code
    points below 127 reach [PyLong_FromString] unchanged, while
    [_PyUnicode_TransformDecimalAndSpaceToASCII] turns the Unicode
    whitespace above them, U+0085 and U+00A0, into spaces. *)
Definition py_isspace (c : ascii) : bool :=
  let n := nat_of_ascii c in
  ((Nat.leb 9 n && Nat.leb n 13) || Nat.eqb n 32 ||
   Nat.eqb n 133 || Nat.eqb n 160)%bool.

Fixpoint lstrip_spaces (s : string) : string :=
  match s with
  | EmptyString => EmptyString
  | String c s' => if py_isspace c then lstrip_spaces s' else s
  end.

Fixpoint all_spaces (s : string) : bool :=
  match s with
  | EmptyString => true
  | String c s' => (py_isspace c && all_spaces s')%bool
  end.

Definition is_digit (c : ascii) : bool :=
  (Nat.leb 48 (nat_of_ascii c) && Nat.leb (nat_of_ascii c) 57)%bool.

(** The digits of the literal: value [acc] and count [nd] so far,
    [prev_digit] telling whether the last character read was a digit.
    [None] on a leading, doubled or trailing underscore or on no digit
    at all; otherwise the value, the digit count and what follows. *)
Fixpoint scan_decimal (s : string) (acc : Z) (nd : nat) (prev_digit : bool)
  : option (Z * nat * string) :=
  match s with
  | EmptyString => if prev_digit then Some (acc, nd, EmptyString) else None
  | String c s' =>
      if is_digit c then
        scan_decimal s' (acc * 10 + Z.of_nat (nat_of_ascii c - 48)) (S nd) true
      else if Ascii.eqb c "_"%char then
        (if prev_digit then scan_decimal s' acc nd false else None)
      else if prev_digit then Some (acc, nd, s) else None
  end.

Definition max_str_digits : nat := 4300.

Definition py_int (s : string) : option Z :=
  let s1 := lstrip_spaces s in
  let '(sign, s2) :=
    match s1 with
    | String c r =>
        if Ascii.eqb c "+"%char then (1, r)
        else if Ascii.eqb c "-"%char then (-1, r)
        else (1, s1)
    | EmptyString => (1, s1)
    end in
  match scan_decimal s2 0 0 false with
  | Some (v, nd, rest) =>
      if (all_spaces rest && Nat.leb nd max_str_digits)%bool then Some (sign * v)
      else None
  | None => None
  end.

(** The four variables [__main__] sets from the options. *)
Record config := mkConfig {
  disk_image_path : string;
  reference_image_folder_path : string;
  similarity_threshold : Z;
  output_folder : string
}.

Definition default_config : config := mkConfig "" "" 10 "".

(** The loop [for opt, arg in opts] of [__main__]; [mkdir_ok] tells
    whether [os.makedirs(folder, exist_ok=True)] succeeds. [inl] is the
    end of the interpreter: [sys.exit()] after [-h] (code 0), or an
    uncaught [ValueError] from [int(arg)] or [RuntimeError] after a failed
    [makedirs] (code 1, traceback on stderr). *)
Fixpoint option_loop (prog : string) (mkdir_ok : string -> bool)
    (opts : list (string * string)) (c : config) : (nat * list cli_line) + config :=
  match opts with
  | [] => inr c
  | (opt, arg) :: opts' =>
      if String.eqb opt "-h" then inl (0%nat, [Usage prog])
      else if str_in opt "-d" then
        option_loop prog mkdir_ok opts'
          (mkConfig arg (reference_image_folder_path c) (similarity_threshold c)
             (output_folder c))
      else if str_in opt "-r" then
        option_loop prog mkdir_ok opts'
          (mkConfig (disk_image_path c) arg (similarity_threshold c) (output_folder c))
      else if str_in opt "-i" then
        match py_int arg with
        | None => inl (1%nat, [])
        | Some v =>
            option_loop prog mkdir_ok opts'
              (mkConfig (disk_image_path c) (reference_image_folder_path c) v
                 (output_folder c))
        end
      else if str_in opt "-o" then
        if mkdir_ok arg then
          option_loop prog mkdir_ok opts'
            (mkConfig (disk_image_path c) (reference_image_folder_path c)
               (similarity_threshold c) arg)
        else inl (1%nat, [])
      else option_loop prog mkdir_ok opts' c
  end.

(** How a run of the script ends: it exits before calling
    [find_similar_images], with an exit code and what it printed, or it
    runs the scan. *)
Inductive cli_outcome :=
  | Exited (code : nat) (lines : list cli_line)
  | Ran (r : run_outcome).

(** The whole of [__main__]: [world d r] is the environment of a run on
    the disk image [d] with the reference folder [r]. *)
Definition cli_main (argv : list string) (mkdir_ok : string -> bool)
    (world : string -> string -> env) : cli_outcome :=
  let prog := hd "" argv in
  if Nat.ltb (List.length argv) 3 then Exited 1 [Usage prog]
  else
    match getopt (tl argv) "hd:r:i:o:" with
    | None => Exited 2 [Usage prog]
    | Some (opts, args) =>
        match option_loop prog mkdir_ok opts default_config with
        | inl (code, lines) => Exited code lines
        | inr c =>
            if (String.eqb (disk_image_path c) "" ||
                String.eqb (reference_image_folder_path c) "")%bool
            then Exited 2 [MissingParams; Usage prog]
            else Ran (main (world (disk_image_path c) (reference_image_folder_path c))
                        (reference_image_folder_path c) (similarity_threshold c)
                        (output_folder c))
        end
    end.

Local Close Scope string_scope.

(** ** Observations used by the statements *)

(** The leaf entries of a tree, depth first, children in provider order. *)
Fixpoint leaves (e : FileEntry) : list FileEntry :=
  match e with
  | FileE _ _ _ => [e]
  | DirE _ _ kids =>
      (fix go (l : list FileEntry) : list FileEntry :=
         match l with [] => [] | k :: l' => leaves k ++ go l' end) kids
  | UnreadableE _ _ => []
  end.

(** Trees on which dfvfs raises nowhere. *)
Fixpoint readable (e : FileEntry) : bool :=
  match e with
  | FileE _ _ _ => true
  | DirE _ _ kids =>
      (fix go (l : list FileEntry) : bool :=
         match l with [] => true | k :: l' => (readable k && go l')%bool end) kids
  | UnreadableE _ _ => false
  end.

(** Frames of [traverse_file_entries] and [is_image_similar] on the
    deepest chain of calls below [e]; the calls into dfvfs, PIL and the
    like take [call_frames] more. *)
Fixpoint depth (e : FileEntry) : nat :=
  match e with
  | FileE _ _ _ => 2
  | DirE _ _ kids =>
      S ((fix go (l : list FileEntry) : nat :=
            match l with [] => 0 | k :: l' => Nat.max (depth k) (go l') end) kids)
  | UnreadableE _ _ => 1
  end%nat.

(** Locations handed to [is_image_similar], in call order. *)
Fixpoint visits (log : list event) : list string :=
  match log with
  | [] => []
  | Visit l :: log' => l :: visits log'
  | _ :: log' => visits log'
  end.

(** One traversal step on a leaf, as [traverse_file_entries] does it. *)
Definition process_leaf (en : env) (refs : reference_list) (T : Z) (out : string)
    (e : FileEntry) : M unit :=
  match e with
  | FileE name location file_object =>
      emit (Visit location) ;;
      is_image_similar en name location file_object refs T out
  | DirE _ _ _ | UnreadableE _ _ => ret tt
  end.

Definition keys (r : result_dict) : list string := map fst r.



(** Pure outcome of [ImageChops.difference]. *)
Definition difference_outcome (image1 image2 : lazy_image) : exn + image :=
  match image1, image2 with
  | None, _ => inl LoadError
  | Some _, None => inl LoadError
  | Some i1, Some i2 => chop_difference i1 i2
  end.

(** The candidate/reference score of [img_similarity_check img1 img2]. *)
Definition score (img1 img2 : lazy_image) : exn + pyfloat :=
  match difference_outcome img2 img1 with
  | inl e => inl e
  | inr d => inr (np_mean d)
  end.

(** Observations on the command line and on reference loading. *)

Local Open Scope string_scope.

(** An option as getopt reports it, written back as command-line
    arguments: the flag, then its value as a separate argument. *)
Definition render_opt (o : string * string) : list string :=
  if String.eqb (fst o) "-h" then [fst o] else [fst o; snd o].

Definition opt_wf (o : string * string) : Prop :=
  o = ("-h", "") \/ In (fst o) ["-d"; "-r"; "-i"; "-o"].

(** Arguments at which getopt stops reading options: none left, or one
    that is [-] or does not start with [-]. *)
Definition stops_options (rest : list string) : Prop :=
  match rest with
  | [] => True
  | a :: _ => String.prefix "-" a = false \/ a = "-"
  end.

(** The value of the last option [flag] in [opts], [dflt] if none. *)
Definition last_arg (flag : string) (opts : list (string * string)) (dflt : string)
  : string :=
  fold_left (fun acc o => if String.eqb (fst o) flag then snd o else acc) opts dflt.

(** The last [-i] value read as an integer, [dflt] if none. *)
Definition last_int (opts : list (string * string)) (dflt : Z) : Z :=
  fold_left (fun acc o =>
               if String.eqb (fst o) "-i"
               then match py_int (snd o) with Some v => v | None => acc end
               else acc) opts dflt.

(** A string of decimal digits and its value. *)
Definition digits_string (ds : list nat) : string :=
  string_of_list_ascii (map (fun d => ascii_of_nat (48 + d)) ds).
Definition digits_value (ds : list nat) : Z :=
  fold_left (fun acc d => acc * 10 + Z.of_nat d) ds 0.

Local Close Scope string_scope.

(** Whether [Image.open] succeeds on every reference-named file of the
    listing, i.e. whether the loading loop finishes. *)
Definition references_open (listing : list (string * open_result)) : bool :=
  forallb (fun p => negb (is_reference_name (fst p)) ||
                    match snd p with OpenFails => false | Opened _ => true end)%bool
    listing.

(** The listing up to its first reference-named file that [Image.open]
    refuses. *)
Fixpoint opened_prefix (listing : list (string * open_result))
  : list (string * open_result) :=
  match listing with
  | [] => []
  | (f, o) :: l =>
      if is_reference_name f then
        match o with OpenFails => [] | Opened _ => (f, o) :: opened_prefix l end
      else (f, o) :: opened_prefix l
  end.

(** A record [find_similar_images] may produce under threshold [T]: an
    image-extension location and a score [q] with [0 <= q <= 255] and
    [q < T]. *)
Definition record_ok (T : Z) (x : match_record) : Prop :=
  is_candidate_location (fst x) = true /\
  exists q, snd x = Num q /\ (0 <= q)%Q /\ (q <= 255)%Q /\ (q < inject_Z T)%Q.

Definition records_ok (T : Z) (r : result_dict) : Prop :=
  Forall (fun p => Forall (record_ok T) (snd p)) r.

(** [records_ok] carried from a state to the next. *)
Definition recs_pres (T : Z) (s s' : state) : Prop :=
  records_ok T (st_result s) -> records_ok T (st_result s').

(** The flags [__main__]'s loop reads, without and with [-h]. *)
Definition four_flags : list string := ["-d"; "-r"; "-i"; "-o"]%string.
Definition five_flags : list string := ["-h"; "-d"; "-r"; "-i"; "-o"]%string.

(** Induction on file trees, with a hypothesis for every child. *)
Fixpoint FileEntry_ind' (P : FileEntry -> Prop)
    (Hf : forall n l fo, P (FileE n l fo))
    (Hd : forall n l kids, Forall P kids -> P (DirE n l kids))
    (Hu : forall n l, P (UnreadableE n l))
    (e : FileEntry) {struct e} : P e :=
  match e with
  | FileE n l fo => Hf n l fo
  | UnreadableE n l => Hu n l
  | DirE n l kids =>
      Hd n l kids
        ((fix go (ks : list FileEntry) : Forall P ks :=
            match ks with
            | [] => Forall_nil P
            | k :: ks' => Forall_cons k (FileEntry_ind' P Hf Hd Hu k) (go ks')
            end) kids)
  end.

(** ** Concrete inputs *)

Local Open Scope string_scope.

(** A one-band 8-bit image from its rows of gray levels. *)
Definition gray (rows : list (list Z)) : image :=
  mkImage UINT8 1 (map (map (fun v => [v])) rows).

Definition ref_img : image := gray [[10; 20]; [30; 40]].
Definition pic_leaf : FileEntry := FileE "a.jpg" "/pics/a.jpg" (Some (Opened (Some ref_img))).
Definition txt_leaf : FileEntry := FileE "readme.txt" "/docs/readme.txt" (Some OpenFails).

(** The tree of the spec's scenario: [/pics/a.jpg] and [/docs/readme.txt]. *)
Definition scenario_tree : FileEntry :=
  DirE "" "/" [DirE "pics" "/pics" [pic_leaf]; DirE "docs" "/docs" [txt_leaf]].

(** An allowance for the frames dfvfs, PIL, numpy and [traceback] take
    below [is_image_similar] in the example runs. *)
Definition example_call_frames : nat := 100.

Definition scenario_env : env :=
  mkEnv (Some scenario_tree) (Some [("ref1.jpg", Opened (Some ref_img))])
        (fun _ _ => true) example_call_frames.

(** A reference folder holding no image. *)
Definition norefs_env : env :=
  mkEnv (Some scenario_tree) (Some [("notes.txt", OpenFails)]) (fun _ _ => true)
        example_call_frames.



(** A candidate at gray level 0 and references at distance 5 and 1; every
    export save fails. *)
Definition cand0 : image := gray [[0]].
Definition mono_env : env :=
  mkEnv (Some (DirE "" "/" [FileE "a.jpg" "/a.jpg" (Some (Opened (Some cand0)))]))
        (Some [("ref1.jpg", Opened (Some (gray [[5]])));
               ("ref2.jpg", Opened (Some (gray [[1]])))])
        (fun _ _ => false) example_call_frames.

(** A candidate with an image extension whose pixel data is truncated. *)
Definition truncated_env : env :=
  mkEnv (Some (DirE "" "/" [FileE "bad.jpg" "/bad.jpg" (Some (Opened None));
                            FileE "b.jpg" "/b.jpg" (Some (Opened (Some cand0)))]))
        (Some [("notes.txt", OpenFails)]) (fun _ _ => true)
        example_call_frames.

(** One reference, one candidate far from it. *)
Definition nomatch_env : env :=
  mkEnv (Some (DirE "" "/" [FileE "a.jpg" "/pics/a.jpg" (Some (Opened (Some (gray [[200]]))))]))
        (Some [("ref1.jpg", Opened (Some cand0))]) (fun _ _ => true)
        example_call_frames.

(** A 2x1 candidate against a 1x1 reference. *)
Definition wide_cand : image := gray [[0; 0]].

(** An image with 32-bit integer samples (PIL mode "I"). *)
Definition int32_img : image := mkImage INT32 1 [[[7]]].

(** A three-band reference (mode "RGB"), mismatching one-band candidates. *)
Definition rgb_img : image := mkImage UINT8 3 [[[0; 0; 0]]].

Definition lookup_or_nil (k : string) (r : result_dict) : list match_record :=
  match dict_lookup k r with Some l => l | None => [] end.

(** Paths of the reference images [find_similar_images] loads. *)
Definition ref_paths (folder : string) (listing : list (string * open_result))
  : list string :=
  map (fun p => os_path_join folder (fst p))
      (filter (fun p => is_reference_name (fst p)) listing).

Local Close Scope string_scope.

(** ** Generic reasoning on the monad *)

Section Relational.
Variable R : state -> state -> Prop.

(** Two computations run from related states end with the same outcome
    in related states. *)
Definition Rel2 {A} (m1 m2 : M A) : Prop :=
  forall s1 s2, R s1 s2 -> fst (m1 s1) = fst (m2 s2) /\ R (snd (m1 s1)) (snd (m2 s2)).

Lemma rel_ret {A} (a : A) : Rel2 (ret a) (ret a).
Proof. intros s1 s2 H; split; auto. Qed.

Lemma rel_raise {A} e : Rel2 (@raise A e) (raise e).
Proof. intros s1 s2 H; split; auto. Qed.

Lemma rel_bind {A B} (m1 m2 : M A) (k1 k2 : A -> M B) :
  Rel2 m1 m2 -> (forall a, Rel2 (k1 a) (k2 a)) -> Rel2 (bind m1 k1) (bind m2 k2).
Proof.
  intros Hm Hk s1 s2 H; unfold bind.
  destruct (Hm s1 s2 H) as [Ho Hs].
  destruct (m1 s1) as [[e1|a1] s1'], (m2 s2) as [[e2|a2] s2']; simpl in *;
    try discriminate.
  - split; congruence.
  - injection Ho as ->. apply Hk; auto.
Qed.

Lemma rel_try {A} (m1 m2 : M A) h1 h2 :
  Rel2 m1 m2 -> (forall e, Rel2 (h1 e) (h2 e)) ->
  Rel2 (try_except m1 h1) (try_except m2 h2).
Proof.
  intros Hm Hh s1 s2 H; unfold try_except.
  destruct (Hm s1 s2 H) as [Ho Hs].
  destruct (m1 s1) as [[e1|a1] s1'], (m2 s2) as [[e2|a2] s2']; simpl in *;
    try discriminate.
  - injection Ho as ->. apply Hh; auto.
  - split; auto.
Qed.

Lemma rel_for_each {A} (l : list A) f1 f2 :
  (forall x, In x l -> Rel2 (f1 x) (f2 x)) -> Rel2 (for_each l f1) (for_each l f2).
Proof.
  induction l as [|x l IH]; intros Hf; simpl.
  - apply rel_ret.
  - apply rel_bind; [apply Hf; left; auto | intros _; apply IH; intros; apply Hf; right; auto].
Qed.

End Relational.

Section Invariant.
Variable P : state -> state -> Prop.
Hypothesis P_refl : forall s, P s s.
Hypothesis P_trans : forall s1 s2 s3, P s1 s2 -> P s2 s3 -> P s1 s3.

(** The state reached from [s] is [P]-related to [s]. *)
Definition Inv {A} (m : M A) : Prop := forall s, P s (snd (m s)).

Lemma inv_ret {A} (a : A) : Inv (ret a).
Proof using P_refl P_trans. intros s; apply P_refl. Qed.

Lemma inv_raise {A} e : Inv (@raise A e).
Proof using P_refl P_trans. intros s; apply P_refl. Qed.

Lemma inv_bind {A B} (m : M A) (k : A -> M B) :
  Inv m -> (forall a, Inv (k a)) -> Inv (bind m k).
Proof using P_refl P_trans.
  intros Hm Hk s; unfold bind. specialize (Hm s).
  destruct (m s) as [[e|a] s']; simpl in *; [auto|].
  apply P_trans with s'; [auto | apply (Hk a s')].
Qed.

Lemma inv_try {A} (m : M A) h :
  Inv m -> (forall e, Inv (h e)) -> Inv (try_except m h).
Proof using P_refl P_trans.
  intros Hm Hh s; unfold try_except. specialize (Hm s).
  destruct (m s) as [[e|a] s']; simpl in *; [|auto].
  apply P_trans with s'; [auto | apply (Hh e s')].
Qed.

Lemma inv_for_each {A} (l : list A) f :
  (forall x, Inv (f x)) -> Inv (for_each l f).
Proof using P_refl P_trans.
  induction l as [|x l IH]; intros Hf; simpl.
  - apply inv_ret.
  - apply inv_bind; auto.
Qed.

Lemma inv_for_each_in {A} (l : list A) f :
  (forall x, In x l -> Inv (f x)) -> Inv (for_each l f).
Proof using P_refl P_trans.
  induction l as [|x l IH]; intros Hf; simpl.
  - apply inv_ret.
  - apply inv_bind; [apply Hf; left; auto|intros _; apply IH; intros; apply Hf; right; auto].
Qed.

End Invariant.

(** ** Dict lemmas *)

Lemma dict_lookup_set {V} (k k' : string) (v : V) d :
  dict_lookup k' (dict_set k v d) =
  if String.eqb k' k then Some v else dict_lookup k' d.
Proof.
  induction d as [|[k0 v0] d IH]; simpl.
  - destruct (String.eqb k' k); reflexivity.
  - destruct (String.eqb k k0) eqn:E.
    + apply String.eqb_eq in E; subst k0. simpl.
      destruct (String.eqb k' k); reflexivity.
    + simpl. rewrite IH.
      destruct (String.eqb k' k0) eqn:E1, (String.eqb k' k) eqn:E2; auto.
      apply String.eqb_eq in E1, E2; subst.
      rewrite String.eqb_refl in E; discriminate.
Qed.

Lemma dict_lookup_some_in {V} k (d : list (string * V)) :
  dict_lookup k d <> None <-> In k (map fst d).
Proof.
  induction d as [|[k0 v0] d IH]; simpl.
  - split; [intros H; contradiction H; reflexivity | tauto].
  - destruct (String.eqb k k0) eqn:E.
    + apply String.eqb_eq in E; subst. split; [auto | discriminate].
    + rewrite IH. apply String.eqb_neq in E. split; [auto | intros [H|H]; [congruence|auto]].
Qed.

Lemma dict_set_keys {V} k (v : V) d :
  In k (map fst d) -> map fst (dict_set k v d) = map fst d.
Proof.
  induction d as [|[k0 v0] d IH]; simpl; [tauto|].
  intros H. destruct (String.eqb k k0) eqn:E; simpl; [reflexivity|].
  f_equal. apply IH. apply String.eqb_neq in E. destruct H; [congruence|auto].
Qed.


(** ** Unfolding the program *)

Lemma bind_ret_unit (m : M unit) s : bind m (fun _ => ret tt) s = m s.
Proof. unfold bind, ret. destruct (m s) as [[e|[]] s']; reflexivity. Qed.

Lemma for_each_app {A} (l1 l2 : list A) f s :
  for_each (l1 ++ l2) f s = bind (for_each l1 f) (fun _ => for_each l2 f) s.
Proof.
  revert s; induction l1 as [|x l1 IH]; intros s; simpl; [reflexivity|].
  unfold bind. destruct (f x s) as [[e|a] s']; [reflexivity|].
  rewrite IH. reflexivity.
Qed.

Lemma image_difference_eq a b s :
  image_difference a b s = (difference_outcome a b, s).
Proof.
  unfold image_difference, difference_outcome, load, bind, ret, raise.
  destruct a, b; try reflexivity. destruct (chop_difference i i0); reflexivity.
Qed.

Lemma img_similarity_check_eq img1 img2 T s :
  img_similarity_check img1 img2 T s =
  (match score img1 img2 with
   | inl e => inl e
   | inr md => inr (py_lt md T, md)
   end, s).
Proof.
  unfold img_similarity_check, bind, score. rewrite image_difference_eq.
  destruct (difference_outcome img2 img1); reflexivity.
Qed.

Lemma image_save_eq en path p s :
  image_save en path p s =
  (match p with
   | None => inl LoadError
   | Some im => if save_ok en path im then inr tt else inl SaveError
   end, s).
Proof.
  unfold image_save, load, bind, ret, raise.
  destruct p; [destruct (save_ok en path i)|]; reflexivity.
Qed.

Lemma is_image_similar_ok en n l fo refs T out s :
  fst (is_image_similar en n l fo refs T out s) = inr tt.
Proof.
  unfold is_image_similar, try_except.
  match goal with |- context [match ?m s with _ => _ end] => destruct (m s) as [[e|[]] s'] end;
    reflexivity.
Qed.

Lemma process_leaf_ok en refs T out e s :
  fst (process_leaf en refs T out e s) = inr tt.
Proof.
  destruct e; simpl; [|reflexivity|reflexivity].
  unfold bind at 1; simpl. apply is_image_similar_ok.
Qed.

Lemma process_leaves_ok en refs T out l s :
  fst (for_each l (process_leaf en refs T out) s) = inr tt.
Proof.
  revert s; induction l as [|e l IH]; intros s; simpl; [reflexivity|].
  unfold bind at 1. pose proof (process_leaf_ok en refs T out e s) as H.
  destruct (process_leaf en refs T out e s) as [o s']; simpl in H; subst o. apply IH.
Qed.

Lemma traverse_overflow en b e refs T out s :
  Nat.ltb b (call_frames en) = true ->
  traverse_file_entries en (S b) e refs T out s = raise RecursionError s.
Proof. intros Ec. destruct e; cbn [traverse_file_entries]; rewrite Ec; reflexivity. Qed.

Lemma traverse_dir en b n l kids refs T out s :
  Nat.ltb b (call_frames en) = false ->
  traverse_file_entries en (S b) (DirE n l kids) refs T out s =
  for_each kids (fun sub => traverse_file_entries en b sub refs T out) s.
Proof.
  intros Ec. cbn [traverse_file_entries]. rewrite Ec.
  revert s; induction kids as [|k kids IH]; intros s; [reflexivity|].
  simpl. unfold bind. destruct (traverse_file_entries en b k refs T out s) as [[e|a] s'];
    [reflexivity|]. simpl in IH. rewrite IH. reflexivity.
Qed.

Lemma traverse_leaf en b n l fo refs T out s :
  Nat.ltb (S b) (call_frames en) = false -> Nat.ltb b (call_frames en) = false ->
  traverse_file_entries en (S (S b)) (FileE n l fo) refs T out s =
  (emit (Visit l) ;; is_image_similar en n l fo refs T out) s.
Proof. intros E1 E2. cbn [traverse_file_entries]. rewrite E1, E2. reflexivity. Qed.

Lemma leaves_cons n l k kids :
  leaves (DirE n l (k :: kids)) = leaves k ++ leaves (DirE n l kids).
Proof. reflexivity. Qed.

Lemma depth_cons n l k kids :
  depth (DirE n l (k :: kids)) = S (Nat.max (depth k) (pred (depth (DirE n l kids)))).
Proof. reflexivity. Qed.

(** Within the recursion budget, the traversal is the sequential
    processing of the leaves in depth-first order. *)
Lemma traverse_leaves en refs T out :
  forall e budget, readable e = true -> (depth e + call_frames en <= budget)%nat -> forall s,
  traverse_file_entries en budget e refs T out s =
  for_each (leaves e) (process_leaf en refs T out) s.
Proof.
  intros e. induction e as [n l fo | n l kids IHk | n l] using FileEntry_ind';
    intros budget Hr Hd s.
  - destruct budget as [|[|b]]; simpl in Hd; try lia.
    rewrite traverse_leaf by (apply Nat.ltb_ge; lia).
    cbn [leaves for_each]. rewrite bind_ret_unit. reflexivity.
  - destruct budget as [|b]; [simpl in Hd; lia|].
    assert (Ec : Nat.ltb b (call_frames en) = false)
      by (apply Nat.ltb_ge; cbn [depth] in Hd; lia).
    rewrite (traverse_dir _ _ _ _ _ _ _ _ _ Ec). revert s; induction kids as [|k kids IH]; intros s;
      [reflexivity|].
    inversion IHk as [|? ? Hk Hks]; subst.
    cbn [readable] in Hr. apply andb_true_iff in Hr. destruct Hr as [Hr1 Hr2].
    rewrite depth_cons in Hd. rewrite leaves_cons, for_each_app.
    change (for_each (k :: kids) ?f s) with (bind (f k) (fun _ => for_each kids f) s).
    unfold bind. rewrite (Hk b Hr1) by lia.
    destruct (for_each (leaves k) (process_leaf en refs T out) s) as [[e|a] s'];
      [reflexivity|].
    apply IH; auto. simpl in Hd |- *. lia.
  - discriminate Hr.
Qed.

(** ** Footprint of [is_image_similar] *)

(** State-free computations. *)
Definition Pure {A} (m : M A) : Prop :=
  forall s1 s2, fst (m s1) = fst (m s2) /\ snd (m s1) = s1.

Lemma rel_pure R {A} (m : M A) : Pure m -> Rel2 R m m.
Proof.
  intros Hp s1 s2 H. destruct (Hp s1 s2) as [H1 H2].
  destruct (Hp s2 s2) as [_ H3]. split; [auto | rewrite H2, H3; auto].
Qed.

Lemma inv_pure P (P_refl : forall s, P s s) {A} (m : M A) : Pure m -> Inv P m.
Proof. intros Hp s. destruct (Hp s s) as [_ H]. rewrite H. apply P_refl. Qed.

Lemma pure_image_open o : Pure (image_open o).
Proof. intros s1 s2; destruct o; split; reflexivity. Qed.

Lemma pure_img_similarity_check i1 i2 T : Pure (img_similarity_check i1 i2 T).
Proof. intros s1 s2; rewrite !img_similarity_check_eq; split; reflexivity. Qed.

Lemma pure_image_save en p i : Pure (image_save en p i).
Proof. intros s1 s2; rewrite !image_save_eq; split; reflexivity. Qed.

Section Footprint.
Variable en : env.
Variables (refs : reference_list) (T : Z) (out : string).

Section ByInv.
Variable P : state -> state -> Prop.
Hypothesis P_refl : forall s, P s s.
Hypothesis P_trans : forall s1 s2 s3, P s1 s2 -> P s2 s3 -> P s1 s3.
Hypothesis P_emit : forall ev, (forall l, ev <> Visit l) -> Inv P (emit ev).
Hypothesis P_append : forall k x, Inv P (result_append k x).

Lemma is_image_similar_inv n l fo :
  Inv P (is_image_similar en n l fo refs T out).
Proof.
  unfold is_image_similar.
  apply (inv_try _ P_refl P_trans); [|intros e; apply P_emit; discriminate].
  destruct (negb (is_candidate_location l)); [(intros ?s; apply P_refl)|].
  destruct fo as [o|]; [|(intros ?s; apply P_refl)].
  apply (inv_bind _ P_refl P_trans);
    [apply (inv_pure _ P_refl); apply pure_image_open|intros image].
  apply (inv_for_each _ P_refl P_trans). intros [rn ri]. unfold compare_with_reference.
  apply (inv_bind _ P_refl P_trans);
    [apply (inv_pure _ P_refl); apply pure_img_similarity_check|intros [b md]].
  destruct b; [|(intros ?s; apply P_refl)].
  apply (inv_bind _ P_refl P_trans); [apply P_append|intros _].
  apply (inv_bind _ P_refl P_trans); [apply P_emit; discriminate|intros _].
  destruct (negb _); [apply (inv_pure _ P_refl); apply pure_image_save|(intros ?s; apply P_refl)].
Qed.

End ByInv.

Section ByRel.
Variable R : state -> state -> Prop.
Hypothesis R_emit : forall ev, Rel2 R (emit ev) (emit ev).
Hypothesis R_append : forall k x, Rel2 R (result_append k x) (result_append k x).



End ByRel.
End Footprint.

(** The keys of the result dict never change during the scan. *)
Definition same_keys (s s' : state) : Prop :=
  keys (st_result s') = keys (st_result s).

Lemma result_append_keys k x : Inv same_keys (result_append k x).
Proof.
  intros s. unfold result_append, same_keys.
  destruct (dict_lookup k (st_result s)) eqn:E; simpl; [|reflexivity].
  apply dict_set_keys, dict_lookup_some_in. rewrite E; discriminate.
Qed.

Lemma process_leaf_keys en refs T out e : Inv same_keys (process_leaf en refs T out e).
Proof.
  assert (Hr : forall s, same_keys s s) by (intros; reflexivity).
  assert (Ht : forall s1 s2 s3, same_keys s1 s2 -> same_keys s2 s3 -> same_keys s1 s3)
    by (unfold same_keys; intros; congruence).
  destruct e; simpl; [|(intros ?s; apply Hr)|(intros ?s; apply Hr)].
  apply (inv_bind _ Hr Ht); [intros s; reflexivity|intros _].
  apply is_image_similar_inv; [exact Hr|exact Ht| |].
  - intros ev _ s; reflexivity.
  - apply result_append_keys.
Qed.

(** [is_image_similar] prints, but never calls itself again. *)
Definition log_grows_without_visit (s s' : state) : Prop :=
  exists L, st_log s' = st_log s ++ L /\ visits L = [].

Lemma visits_app l1 l2 : visits (l1 ++ l2) = visits l1 ++ visits l2.
Proof. induction l1 as [|[] l1 IH]; simpl; try rewrite IH; reflexivity. Qed.

Lemma is_image_similar_no_visit en refs T out n l fo :
  Inv log_grows_without_visit (is_image_similar en n l fo refs T out).
Proof.
  assert (Hr : forall s, log_grows_without_visit s s)
    by (intros s; exists []; rewrite app_nil_r; auto).
  assert (Ht : forall s1 s2 s3, log_grows_without_visit s1 s2 ->
                 log_grows_without_visit s2 s3 -> log_grows_without_visit s1 s3).
  { intros s1 s2 s3 [L1 [H1 V1]] [L2 [H2 V2]]. exists (L1 ++ L2).
    rewrite H2, H1, app_assoc, visits_app, V1, V2; auto. }
  apply is_image_similar_inv; [exact Hr|exact Ht| |].
  - intros ev Hev s. exists [ev]. split; [reflexivity|].
    destruct ev; simpl; auto. exfalso; eapply Hev; reflexivity.
  - intros k x s. unfold result_append.
    destruct (dict_lookup k (st_result s)); exists []; rewrite app_nil_r; auto.
Qed.

(** ** The records of a traversal, leaf by leaf *)







Lemma process_leaf_visits en refs T out n l fo s :
  visits (st_log (snd (process_leaf en refs T out (FileE n l fo) s))) =
  visits (st_log s) ++ [l].
Proof.
  simpl. unfold bind at 1; simpl.
  destruct (is_image_similar_no_visit en refs T out n l fo
              (mkState (st_result s) (st_log s ++ [Visit l]))) as [L [HL HV]].
  rewrite HL; simpl. rewrite !visits_app, HV; simpl. rewrite app_nil_r; reflexivity.
Qed.

Lemma leaves_are_files t :
  Forall (fun e => exists n l fo, e = FileE n l fo) (leaves t).
Proof.
  induction t as [n l fo | n l kids IHk | n l] using FileEntry_ind'.
  - constructor; [eauto|constructor].
  - induction kids as [|k kids IH]; [constructor|].
    inversion IHk; subst. rewrite leaves_cons. apply Forall_app; split; auto.
  - constructor.
Qed.

Lemma process_leaves_visits en refs T out l s :
  Forall (fun e => exists n l fo, e = FileE n l fo) l ->
  visits (st_log (snd (for_each l (process_leaf en refs T out) s))) =
  visits (st_log s) ++ map entry_location l.
Proof.
  revert s; induction l as [|e l IH]; intros s Hf; simpl.
  - rewrite app_nil_r; reflexivity.
  - inversion Hf as [|? ? [n [loc [fo ->]]] Hf']; subst.
    unfold bind. pose proof (process_leaf_ok en refs T out (FileE n loc fo) s) as Ho.
    pose proof (process_leaf_visits en refs T out n loc fo s) as Hv.
    destruct (process_leaf en refs T out (FileE n loc fo) s) as [o s']; simpl in *; subst o.
    rewrite IH by auto. rewrite Hv, <- app_assoc; reflexivity.
Qed.

(** ** C1: a record is appended iff the score is below the threshold *)

Lemma py_lt_spec md T :
  py_lt md T = true <-> exists q, md = Num q /\ (q < inject_Z T)%Q.
Proof.
  destruct md as [q|]; simpl; split.
  - intros H; exists q; split; auto. unfold Qlt; simpl. lia.
  - intros [q' [Hq Hlt]]. injection Hq as <-. unfold Qlt in Hlt; simpl in Hlt. lia.
  - discriminate.
  - intros [q' [Hq _]]; discriminate.
Qed.

(** C1: comparing a candidate with a reference whose score is [md]
    appends [(location, md)] to that reference's list iff [md < T] (a NaN
    or a score equal to [T] is not below it), and touches no other list,
    whether or not the export that follows succeeds. *)
Theorem compare_records_iff_below_threshold en name location image rn rimg T out s md :
  score image rimg = inr md ->
  dict_lookup rn (st_result s) <> None ->
  let s' := snd (compare_with_reference en name location image T out (rn, rimg) s) in
  dict_lookup rn (st_result s') =
    option_map (fun l => l ++ (if py_lt md T then [(location, md)] else []))
      (dict_lookup rn (st_result s)) /\
  (forall k, k <> rn -> dict_lookup k (st_result s') = dict_lookup k (st_result s)) /\
  (py_lt md T = true <-> exists q, md = Num q /\ (q < inject_Z T)%Q).
Proof.
  intros Hs Hk s'. split; [|split; [|apply py_lt_spec]]; unfold s', compare_with_reference;
    unfold bind at 1; rewrite img_similarity_check_eq, Hs; simpl.
  - destruct (py_lt md T).
    + unfold bind at 1; unfold result_append at 1.
      destruct (dict_lookup rn (st_result s)) as [l|] eqn:E; [|contradiction].
      simpl. unfold bind, emit; simpl.
      destruct (negb (String.eqb out "")); [rewrite image_save_eq|]; simpl;
        rewrite dict_lookup_set, String.eqb_refl; reflexivity.
    + unfold ret; simpl.
      destruct (dict_lookup rn (st_result s)); simpl; rewrite ?app_nil_r; reflexivity.
  - intros k Hne. destruct (py_lt md T); [|reflexivity].
    unfold bind at 1; unfold result_append at 1.
    destruct (dict_lookup rn (st_result s)) as [l|] eqn:E; [|contradiction].
    simpl. unfold bind, emit; simpl.
    apply String.eqb_neq in Hne.
    destruct (negb (String.eqb out "")); [rewrite image_save_eq|]; simpl;
      rewrite dict_lookup_set, Hne; reflexivity.
Qed.

Lemma compare_records_iff_below_threshold_witness :
  score (Some ref_img) (Some ref_img) = inr (Num (0 # 4)) /\
  dict_lookup "r"%string (st_result (mkState [("r"%string, [])] [])) <> None /\
  let s' := snd (compare_with_reference scenario_env "a.jpg"%string "/a.jpg"%string (Some ref_img) 10 ""%string
                   ("r"%string, Some ref_img) (mkState [("r"%string, [])] [])) in
  dict_lookup "r"%string (st_result s') =
    option_map (fun l => l ++ (if py_lt (Num (0 # 4)) 10 then [("/a.jpg"%string, Num (0 # 4))] else []))
      (dict_lookup "r"%string (st_result (mkState [("r"%string, [])] []))) /\
  (forall k, k <> "r"%string -> dict_lookup k (st_result s') =
                        dict_lookup k (st_result (mkState [("r"%string, [])] []))) /\
  (py_lt (Num (0 # 4)) 10 = true <-> exists q, Num (0 # 4) = Num q /\ (q < inject_Z 10)%Q).
Proof.
  split; [vm_compute; reflexivity|]. split; [vm_compute; discriminate|].
  apply compare_records_iff_below_threshold; [vm_compute; reflexivity|vm_compute; discriminate].
Defined.

(** ** C2: depth-first traversal, within the recursion budget *)



(** ** C3: an empty reference set *)

Lemma load_references_none folder l acc s :
  Forall (fun p => is_reference_name (fst p) = false) l ->
  load_references folder l acc s = (inr acc, s).
Proof.
  revert acc; induction l as [|[f o] l IH]; intros acc Hf; [reflexivity|].
  inversion Hf as [|? ? Hn Hf']; subst. simpl in Hn |- *. rewrite Hn. auto.
Qed.

Lemma process_leaves_keys en refs T out l s :
  keys (st_result (snd (for_each l (process_leaf en refs T out) s))) = keys (st_result s).
Proof.
  apply (inv_for_each same_keys (fun s => eq_refl)
           (fun s1 s2 s3 H1 H2 => eq_trans H2 H1)).
  intros e. apply process_leaf_keys.
Qed.

Lemma visits_setup log :
  visits (log ++ [ParseCompleted; RefsLoaded; RootLoaded; StartScan]) = visits log.
Proof. rewrite visits_app; simpl; apply app_nil_r. Qed.

Lemma find_similar_images_setup en folder T out t l refs s s1 :
  fs_root en = Some t -> ref_listing en = Some l ->
  load_references folder l [] (mkState (st_result s) (st_log s ++ [ParseCompleted])) =
    (inr refs, s1) ->
  find_similar_images en folder T out s =
  bind (traverse_file_entries en traverse_budget t refs T out) (fun _ => ret None)
    (mkState (st_result s1) (st_log s1 ++ [RefsLoaded; RootLoaded; StartScan])).
Proof.
  intros Hfs Hl Hload. unfold find_similar_images. rewrite Hfs, Hl.
  cbv [bind ret emit try_except raise]. rewrite Hload.
  destruct s1; simpl. rewrite <- !app_assoc. reflexivity.
Qed.

Lemma main_setup en folder T out t l refs s1 :
  fs_root en = Some t -> ref_listing en = Some l ->
  load_references folder l [] (mkState [] [ParseCompleted]) = (inr refs, s1) ->
  main en folder T out =
  match traverse_file_entries en traverse_budget t refs T out
          (mkState (st_result s1) (st_log s1 ++ [RefsLoaded; RootLoaded; StartScan])) with
  | (inl _, s) => mkOutcome 1 (st_log s) (st_result s)
  | (inr _, s) => mkOutcome 0 (st_log s ++ final_report (st_result s)) (st_result s)
  end.
Proof.
  intros Hfs Hl Hload. unfold main.
  rewrite (find_similar_images_setup en folder T out t l refs (mkState [] []) s1 Hfs Hl Hload).
  unfold bind. destruct (traverse_file_entries _ _ _ _ _ _ _) as [[e|[]] s']; reflexivity.
Qed.




(** C3 (corrected): a reference folder that lists no image does not abort
    the run: for a tree that dfvfs reads without error and that fits in
    the recursion budget (as in C2), the whole tree is still traversed
    (every leaf handed to [is_image_similar]), nothing is recorded, the
    "No similar images identified" notice is printed and the exit code
    is 0. *)
Theorem no_reference_images_still_scans en folder T out t l :
  fs_root en = Some t -> ref_listing en = Some l ->
  Forall (fun p => is_reference_name (fst p) = false) l ->
  readable t = true -> (depth t + call_frames en <= traverse_budget)%nat ->
  let o := main en folder T out in
  exit_code o = 0%nat /\ final_result o = [] /\
  visits (output o) = map entry_location (leaves t) /\
  exists pre, output o = pre ++ [NoSimilar].
Proof.
  intros Hfs Hl Hn Hr Hd o. unfold o.
  rewrite (main_setup en folder T out t l [] (mkState [] [ParseCompleted]) Hfs Hl)
    by (apply load_references_none; exact Hn).
  rewrite (traverse_leaves en [] T out t traverse_budget Hr Hd). simpl.
  set (s0 := {| st_result := []; st_log := [ParseCompleted; RefsLoaded; RootLoaded; StartScan] |}).
  pose proof (process_leaves_ok en [] T out (leaves t) s0) as Hok.
  pose proof (process_leaves_keys en [] T out (leaves t) s0) as Hk.
  pose proof (process_leaves_visits en [] T out (leaves t) s0 (leaves_are_files t)) as Hv.
  destruct (for_each (leaves t) (process_leaf en [] T out) s0) as [r s1]; simpl in *.
  subst r. simpl.
  destruct (st_result s1) as [|p rr] eqn:E; [|discriminate Hk].
  simpl. split; [reflexivity|split; [reflexivity|split]].
  - rewrite visits_app, Hv. simpl. apply app_nil_r.
  - eexists; reflexivity.
Qed.

Lemma no_reference_images_still_scans_witness :
  fs_root norefs_env = Some scenario_tree /\
  ref_listing norefs_env = Some [("notes.txt"%string, OpenFails)] /\
  let o := main norefs_env "refs" 10 EmptyString in
  exit_code o = 0%nat /\ final_result o = [] /\
  visits (output o) = map entry_location (leaves scenario_tree) /\
  exists pre, output o = pre ++ [NoSimilar].
Proof.
  split; [reflexivity|split; [reflexivity|]].
  apply (no_reference_images_still_scans norefs_env "refs" 10 EmptyString scenario_tree
           [("notes.txt"%string, OpenFails)]); try reflexivity.
  - repeat constructor.
  - vm_compute; lia.
Defined.

(** C3 counterexample: no reference image, yet exit code 0 and both
    leaves of the tree visited. *)
Lemma empty_reference_folder_not_aborted :
  exit_code (main norefs_env "refs" 10 EmptyString) = 0%nat /\
  visits (output (main norefs_env "refs" 10 EmptyString)) =
    ["/pics/a.jpg"%string; "/docs/readme.txt"%string].
Proof. vm_compute. split; reflexivity. Qed.

(** ** C4: the score of an image against itself *)

Lemma zip_with_diag {A C} (f : A -> A -> C) l : zip_with f l l = map (fun x => f x x) l.
Proof. induction l; simpl; f_equal; auto. Qed.

Lemma sum_zeros {A} (l : list A) : fold_right Z.add 0 (map (fun _ => 0) l) = 0.
Proof. induction l; simpl; auto. Qed.

Lemma wf_samples_nonempty img : wf_image img -> samples img <> [].
Proof.
  intros [Hb [Hh [Hw Hrows]]]. unfold samples, im_height, im_width in *.
  destruct (im_rows img) as [|r rows]; simpl in *; [lia|].
  inversion Hrows as [|? ? [Hr Hpx] _]; subst.
  destruct r as [|px r]; simpl in *; [lia|].
  inversion Hpx as [|? ? [Hl _] _]; subst.
  destruct px; simpl in *; [lia|discriminate].
Qed.

(** C4 (corrected): for an image with 8-bit samples, as every decoded
    JPEG, PNG, BMP, GIF or 8-bit TIFF is, the score against an identical
    copy is exactly 0. *)
Theorem self_score_is_zero img :
  wf_image img -> im_type img = UINT8 ->
  exists q, score (Some img) (Some img) = inr (Num q) /\ (q == 0)%Q.
Proof.
  intros Hwf Ht. unfold score, difference_outcome, chop_difference.
  rewrite Ht, Nat.eqb_refl. simpl.
  unfold np_mean, samples. simpl.
  rewrite zip_with_diag.
  rewrite (map_ext (fun x => zip_with (zip_with (fun x0 y => clip8 (Z.abs (x0 - y)))) x x)
             (map (map (fun _ => 0)))).
  2:{ intros row. rewrite zip_with_diag. apply map_ext. intros px.
      rewrite zip_with_diag. apply map_ext. intros v. rewrite Z.sub_diag. reflexivity. }
  rewrite <- !concat_map.
  pose proof (wf_samples_nonempty img Hwf) as Hne. unfold samples in Hne.
  rewrite length_map.
  destruct (length (concat (concat (im_rows img)))) eqn:E.
  - apply length_zero_iff_nil in E. contradiction.
  - eexists; split; [reflexivity|]. rewrite sum_zeros. reflexivity.
Qed.

Lemma self_score_is_zero_witness :
  wf_image ref_img /\ im_type ref_img = UINT8 /\
  exists q, score (Some ref_img) (Some ref_img) = inr (Num q) /\ (q == 0)%Q.
Proof.
  assert (H : wf_image ref_img).
  { unfold wf_image; simpl. repeat split; try lia; repeat constructor; lia. }
  split; [exact H|split; [reflexivity|]].
  apply self_score_is_zero; [exact H|reflexivity].
Defined.

(** C4 counterexample: an image with 32-bit samples (mode "I", e.g. a
    32-bit TIFF) has no score against itself: [ImageChops.difference]
    raises a mode error. *)
Lemma int32_self_comparison_raises :
  score (Some int32_img) (Some int32_img) = inl ModeError.
Proof. reflexivity. Qed.

(** ** C5: monotonicity in the threshold *)

Definition incl_opt (o1 o2 : option (list match_record)) : Prop :=
  match o1, o2 with
  | Some l1, Some l2 => incl l1 l2
  | None, None => True
  | _, _ => False
  end.

(** Runs under thresholds [T1 <= T2]: the references are keys, and every
    list of the first run is included in the same list of the second. *)
Definition mono_rel (refs : reference_list) (s1 s2 : state) : Prop :=
  (forall n, In n (map fst refs) -> dict_lookup n (st_result s1) <> None) /\
  (forall k, incl_opt (dict_lookup k (st_result s1)) (dict_lookup k (st_result s2))).

Lemma py_lt_mono md T1 T2 : T1 <= T2 -> py_lt md T1 = true -> py_lt md T2 = true.
Proof.
  destruct md as [q|]; simpl; [|discriminate]. intros Hle H.
  apply Z.ltb_lt in H. apply Z.ltb_lt. pose proof (Pos2Z.is_pos (Qden q)). nia.
Qed.

(** What follows a successful append when no export can fail. *)
Lemma after_append_ok en name image out s i :
  (out = EmptyString \/ forall p i, save_ok en p i = true) -> image = Some i ->
  (emit SimilarFound ;;
   (if negb (String.eqb out "") then image_save en (os_path_join out name) image
    else ret tt)) s =
  (inr tt, mkState (st_result s) (st_log s ++ [SimilarFound])).
Proof.
  intros Hout ->. unfold bind, emit; simpl.
  destruct Hout as [->|Hs]; [reflexivity|].
  destruct (negb (String.eqb out "")); [|reflexivity].
  rewrite image_save_eq, Hs. reflexivity.
Qed.

Lemma compare_raise_eq en name location image T out rn ri s e :
  score image ri = inl e ->
  compare_with_reference en name location image T out (rn, ri) s = (inl e, s).
Proof.
  intros Hs. unfold compare_with_reference, bind at 1.
  rewrite img_similarity_check_eq, Hs. reflexivity.
Qed.

Lemma compare_nomatch_eq en name location image T out rn ri s md :
  score image ri = inr md -> py_lt md T = false ->
  compare_with_reference en name location image T out (rn, ri) s = (inr tt, s).
Proof.
  intros Hs Hlt. unfold compare_with_reference, bind at 1.
  rewrite img_similarity_check_eq, Hs, Hlt. reflexivity.
Qed.

Lemma score_inr_candidate image ri md :
  score image ri = inr md -> exists i, image = Some i.
Proof.
  unfold score, difference_outcome. destruct ri, image; try discriminate; eauto.
Qed.

Lemma compare_match_eq en name location image T out rn ri s md l :
  (out = EmptyString \/ forall p i, save_ok en p i = true) ->
  score image ri = inr md -> py_lt md T = true ->
  dict_lookup rn (st_result s) = Some l ->
  compare_with_reference en name location image T out (rn, ri) s =
  (inr tt, mkState (dict_set rn (l ++ [(location, md)]) (st_result s))
                   (st_log s ++ [SimilarFound])).
Proof.
  intros Hout Hs Hlt Hl. destruct (score_inr_candidate _ _ _ Hs) as [i Hi].
  unfold compare_with_reference, bind at 1.
  rewrite img_similarity_check_eq, Hs, Hlt. simpl.
  unfold bind at 1, result_append. rewrite Hl.
  rewrite (after_append_ok en name image out _ i Hout Hi). reflexivity.
Qed.

Lemma incl_opt_set k v1 v2 r1 r2 :
  incl v1 v2 -> (forall k', incl_opt (dict_lookup k' r1) (dict_lookup k' r2)) ->
  forall k', incl_opt (dict_lookup k' (dict_set k v1 r1)) (dict_lookup k' (dict_set k v2 r2)).
Proof.
  intros Hv H k'. rewrite !dict_lookup_set. destruct (String.eqb k' k); simpl; auto.
Qed.

Lemma compare_mono en name location image T1 T2 out refs rn ri :
  T1 <= T2 -> In rn (map fst refs) ->
  (out = EmptyString \/ forall p i, save_ok en p i = true) ->
  Rel2 (mono_rel refs)
    (compare_with_reference en name location image T1 out (rn, ri))
    (compare_with_reference en name location image T2 out (rn, ri)).
Proof.
  intros Hle Hin Hout s1 s2 [Hkeys Hincl].
  pose proof (Hkeys rn Hin) as Hk1. pose proof (Hincl rn) as Hk2.
  destruct (dict_lookup rn (st_result s1)) as [l1|] eqn:E1; [|contradiction].
  destruct (dict_lookup rn (st_result s2)) as [l2|] eqn:E2; simpl in Hk2; [|contradiction].
  destruct (score image ri) as [e|md] eqn:Hs.
  - rewrite !(compare_raise_eq _ _ _ _ _ _ _ _ _ e Hs). split; [reflexivity|split; auto].
  - destruct (py_lt md T1) eqn:H1.
    + pose proof (py_lt_mono md T1 T2 Hle H1) as H2.
      rewrite (compare_match_eq _ _ _ _ _ _ _ _ _ _ l1 Hout Hs H1 E1).
      rewrite (compare_match_eq _ _ _ _ _ _ _ _ _ _ l2 Hout Hs H2 E2).
      split; [reflexivity|split; simpl].
      * intros n Hn. rewrite dict_lookup_set. destruct (String.eqb n rn); [discriminate|auto].
      * apply incl_opt_set; auto. apply incl_app_app; auto. apply incl_refl.
    + rewrite (compare_nomatch_eq _ _ _ _ _ _ _ _ _ _ Hs H1).
      destruct (py_lt md T2) eqn:H2.
      * rewrite (compare_match_eq _ _ _ _ _ _ _ _ _ _ l2 Hout Hs H2 E2).
        split; [reflexivity|split; simpl; auto].
        intros k. rewrite dict_lookup_set. destruct (String.eqb k rn) eqn:Ek.
        -- apply String.eqb_eq in Ek; subst. rewrite E1. simpl.
           apply incl_appl. exact Hk2.
        -- apply Hincl.
      * rewrite (compare_nomatch_eq _ _ _ _ _ _ _ _ _ _ Hs H2). split; [reflexivity|split; auto].
Qed.

Lemma mono_emit refs ev : Rel2 (mono_rel refs) (emit ev) (emit ev).
Proof. intros s1 s2 H; split; [reflexivity|exact H]. Qed.

Lemma rel_ext R {A} (m1 m1' m2 m2' : M A) :
  (forall s, m1 s = m1' s) -> (forall s, m2 s = m2' s) ->
  Rel2 R m1' m2' -> Rel2 R m1 m2.
Proof. intros H1 H2 H s1 s2 Hs. rewrite H1, H2. apply H; auto. Qed.

Lemma is_image_similar_mono en refs T1 T2 out n l fo :
  T1 <= T2 -> (out = EmptyString \/ forall p i, save_ok en p i = true) ->
  Rel2 (mono_rel refs) (is_image_similar en n l fo refs T1 out)
                       (is_image_similar en n l fo refs T2 out).
Proof.
  intros Hle Hout. unfold is_image_similar. apply rel_try; [|intros; apply mono_emit].
  destruct (negb (is_candidate_location l)); [apply rel_ret|].
  destruct fo as [o|]; [|apply rel_ret].
  apply rel_bind; [apply rel_pure; apply pure_image_open|intros image].
  apply rel_for_each. intros [rn ri] Hin.
  apply compare_mono; auto. apply (in_map fst) in Hin. exact Hin.
Qed.

Lemma traverse_mono en refs T1 T2 out :
  T1 <= T2 -> (out = EmptyString \/ forall p i, save_ok en p i = true) ->
  forall e b, Rel2 (mono_rel refs) (traverse_file_entries en b e refs T1 out)
                                   (traverse_file_entries en b e refs T2 out).
Proof.
  intros Hle Hout e. induction e as [n l fo | n l kids IHk | n l] using FileEntry_ind';
    intros [|b]; try apply rel_raise;
    destruct (Nat.ltb b (call_frames en)) eqn:Ec;
    try (eapply rel_ext; [intros s; apply (traverse_overflow _ _ _ _ _ _ _ Ec)
                         |intros s; apply (traverse_overflow _ _ _ _ _ _ _ Ec)|apply rel_raise]).
  - cbn [traverse_file_entries]. rewrite Ec.
    destruct b as [|b]; [apply rel_raise|].
    apply rel_bind; [apply mono_emit|intros _].
    destruct (Nat.ltb b (call_frames en)); [apply rel_raise|].
    apply is_image_similar_mono; auto.
  - eapply rel_ext; [intros s; apply (traverse_dir _ _ _ _ _ _ _ _ _ Ec)
                    |intros s; apply (traverse_dir _ _ _ _ _ _ _ _ _ Ec)|].
    apply rel_for_each. intros k Hk. rewrite Forall_forall in IHk. apply IHk; auto.
  - cbn [traverse_file_entries]. rewrite Ec. apply rel_raise.
Qed.

Lemma in_keys_set {V} n k (v : V) d : In n (map fst (dict_set k v d)) -> n = k \/ In n (map fst d).
Proof.
  induction d as [|[k0 v0] d IH]; simpl.
  - intros [H|[]]; auto.
  - destruct (String.eqb k k0) eqn:E; simpl.
    + intros [H|H]; auto.
    + intros [H|H]; auto. destruct (IH H); auto.
Qed.

(** References loaded so far are keys of the result dict. *)
Lemma load_references_keys folder l acc s refs s1 :
  load_references folder l acc s = (inr refs, s1) ->
  (forall n, In n (map fst acc) -> dict_lookup n (st_result s) <> None) ->
  forall n, In n (map fst refs) -> dict_lookup n (st_result s1) <> None.
Proof.
  revert acc s; induction l as [|[f o] l IH]; intros acc s Hl Hacc; simpl in Hl.
  - injection Hl as <- <-. exact Hacc.
  - destruct (is_reference_name f); [|eapply IH; eauto].
    destruct o as [|p]; [discriminate|].
    unfold bind at 1, image_open, ret at 1 in Hl. unfold bind at 1, result_init in Hl.
    eapply IH; [exact Hl|]. simpl. intros n Hn. rewrite dict_lookup_set.
    destruct (String.eqb n (os_path_join folder f)) eqn:E; [discriminate|].
    apply in_keys_set in Hn. destruct Hn as [Hn|Hn]; [apply String.eqb_neq in E; contradiction|].
    apply Hacc; auto.
Qed.

(** C5 (corrected): with no export configured, or with every export save
    succeeding, every match recorded under the threshold [T1] is recorded
    under any larger threshold [T2]. *)
Theorem match_sets_monotone_without_failing_export en folder T1 T2 out :
  0 <= T1 -> T1 < T2 ->
  (out = EmptyString \/ forall p i, save_ok en p i = true) ->
  forall k r, In r (lookup_or_nil k (final_result (main en folder T1 out))) ->
              In r (lookup_or_nil k (final_result (main en folder T2 out))).
Proof.
  intros _ Hlt Hout k r. unfold main, find_similar_images.
  destruct (fs_root en) as [t|]; [|cbv [bind raise]; auto].
  cbv [bind ret emit try_except raise].
  destruct (ref_listing en) as [l|]; [|auto].
  destruct (load_references folder l [] _) as [[e|refs] s1] eqn:HL; [auto|].
  match goal with
  | |- context [traverse_file_entries en traverse_budget t refs T1 out ?s] => set (s2 := s)
  end.
  assert (Hrel : mono_rel refs s2 s2).
  { split.
    - apply (load_references_keys _ _ _ _ _ _ HL). simpl; tauto.
    - intros k'. unfold s2; simpl. destruct (dict_lookup k' (st_result s1)); simpl; auto.
      apply incl_refl. }
  destruct (traverse_mono en refs T1 T2 out (Z.lt_le_incl _ _ Hlt) Hout t traverse_budget
              s2 s2 Hrel) as [Ho [_ Hincl]].
  destruct (traverse_file_entries en traverse_budget t refs T1 out s2) as [o1 s1'],
           (traverse_file_entries en traverse_budget t refs T2 out s2) as [o2 s2'].
  simpl in Ho, Hincl. subst o2.
  unfold lookup_or_nil. specialize (Hincl k).
  destruct o1; simpl;
    destruct (dict_lookup k (st_result s1')), (dict_lookup k (st_result s2'));
    simpl in Hincl; try contradiction; auto.
Qed.

Lemma match_sets_monotone_without_failing_export_witness :
  0 <= 3 /\ 3 < 10 /\ (EmptyString = EmptyString \/ forall p i, save_ok mono_env p i = true) /\
  forall k r, In r (lookup_or_nil k (final_result (main mono_env "refs" 3 EmptyString))) ->
              In r (lookup_or_nil k (final_result (main mono_env "refs" 10 EmptyString))).
Proof.
  split; [lia|split; [lia|split; [left; reflexivity|]]].
  apply match_sets_monotone_without_failing_export; [lia|lia|left; reflexivity].
Defined.

(** C5 counterexample: an export that fails after a new match under the
    larger threshold stops the candidate's loop before the second
    reference, so the match recorded for it under [T1 = 3] is lost under
    [T2 = 10]. *)
Lemma failing_export_breaks_monotonicity :
  In ("/a.jpg"%string, Num (1 # 1))
     (lookup_or_nil "refs/ref2.jpg" (final_result (main mono_env "refs" 3 "out"))) /\
  ~ In ("/a.jpg"%string, Num (1 # 1))
     (lookup_or_nil "refs/ref2.jpg" (final_result (main mono_env "refs" 10 "out"))).
Proof. vm_compute. split; [left; reflexivity|intros []]. Qed.

(** ** C6: candidates that fail to decode *)

(** C6 (corrected): a candidate with an image extension whose bytes fail
    to decode returns normally without appending any record. The error is
    logged when [Image.open] cannot identify the bytes, or, when the header
    is identified but the pixel data is corrupt, only if some reference is
    loaded: decoding is lazy and happens at the first comparison. *)
Theorem decode_failure_is_soft en n location c refs T out s :
  (c = OpenFails \/ c = Opened None) ->
  is_candidate_location location = true ->
  is_image_similar en n location (Some c) refs T out s =
  (inr tt, match c, refs with
           | Opened _, [] => s
           | _, _ => mkState (st_result s) (st_log s ++ [ErrComparing location])
           end).
Proof.
  intros Hc Hloc. unfold is_image_similar. rewrite Hloc. cbn [negb].
  destruct Hc as [->| ->]; [reflexivity|].
  destruct refs as [|[rn ri] refs]; [reflexivity|].
  cbv [try_except image_open for_each bind ret].
  rewrite (compare_raise_eq _ _ _ _ _ _ _ _ _ LoadError); [reflexivity|].
  unfold score, difference_outcome. destruct ri; reflexivity.
Qed.

Lemma decode_failure_is_soft_witness :
  (Opened None = OpenFails \/ Opened None = Opened None) /\
  is_candidate_location "/bad.jpg" = true /\
  is_image_similar truncated_env "bad.jpg" "/bad.jpg" (Some (Opened None))
    [("r"%string, Some cand0)] 10 EmptyString (mkState [("r"%string, [])] []) =
  (inr tt, mkState [("r"%string, [])] [ErrComparing "/bad.jpg"]).
Proof.
  split; [right; reflexivity|split; [reflexivity|]].
  apply (decode_failure_is_soft truncated_env "bad.jpg" "/bad.jpg" (Opened None)
           [("r"%string, Some cand0)] 10 EmptyString (mkState [("r"%string, [])] []));
    [right; reflexivity|reflexivity].
Defined.

(** C6 counterexample: with no reference loaded, the truncated
    [/bad.jpg] is skipped without any logged error (the scan does go on to
    [/b.jpg]). *)
Lemma truncated_candidate_not_logged :
  ~ In (ErrComparing "/bad.jpg") (output (main truncated_env "refs" 10 EmptyString)) /\
  visits (output (main truncated_env "refs" 10 EmptyString)) =
    ["/bad.jpg"%string; "/b.jpg"%string].
Proof.
  vm_compute. split; [|reflexivity].
  intros H; repeat (destruct H as [H|H]; [discriminate|]); exact H.
Qed.

(** ** C7: the final report *)

(** C7: with one loaded reference and no match the report is the
    "Final Report: " header alone; the "No similar images identified"
    notice is printed only when no reference is loaded at all, because the
    test is [len(result) != 0] on a dict holding every reference. *)
Theorem no_match_report_lacks_notice :
  output (main nomatch_env "refs" 10 EmptyString) =
    [ParseCompleted; RefsLoaded; RootLoaded; StartScan; Visit "/pics/a.jpg"; FinalReport] /\
  final_result (main nomatch_env "refs" 10 EmptyString) = [("refs/ref1.jpg"%string, [])] /\
  ~ In NoSimilar (output (main nomatch_env "refs" 10 EmptyString)).
Proof.
  vm_compute. split; [reflexivity|split; [reflexivity|]].
  intros H; repeat (destruct H as [H|H]; [discriminate|]); exact H.
Qed.

(** ** C8: the keys of the result dict *)

Lemma inv_ext P {A} (m m' : M A) : (forall s, m s = m' s) -> Inv P m' -> Inv P m.
Proof. intros H Hm s. rewrite H. apply Hm. Qed.

Lemma traverse_keys en refs T out :
  forall e b s, keys (st_result (snd (traverse_file_entries en b e refs T out s))) =
                keys (st_result s).
Proof.
  assert (Hr : forall s, same_keys s s) by (intros; reflexivity).
  assert (Ht : forall s1 s2 s3, same_keys s1 s2 -> same_keys s2 s3 -> same_keys s1 s3)
    by (unfold same_keys; intros; congruence).
  intros e. induction e as [n l fo | n l kids IHk | n l] using FileEntry_ind';
    intros [|b]; try (intros; reflexivity);
    destruct (Nat.ltb b (call_frames en)) eqn:Ec;
    try (intros s; rewrite (traverse_overflow _ _ _ _ _ _ s Ec); reflexivity).
  - destruct b as [|b]; [intros s; cbn [traverse_file_entries]; rewrite Ec; reflexivity|].
    destruct (Nat.ltb b (call_frames en)) eqn:Ec2.
    + intros s. cbn [traverse_file_entries]. rewrite Ec, Ec2. reflexivity.
    + intros s. rewrite traverse_leaf by assumption.
      apply (process_leaf_keys en refs T out (FileE n l fo)).
  - apply (inv_ext same_keys _ _ (fun s => traverse_dir en b n l kids refs T out s Ec)).
    apply (inv_for_each_in same_keys Hr Ht). intros k Hin s.
    rewrite Forall_forall in IHk. apply (IHk k Hin b s).
  - intros s. cbn [traverse_file_entries]. rewrite Ec. reflexivity.
Qed.

Lemma dict_set_new_keys {V} k (v : V) d :
  ~ In k (map fst d) -> map fst (dict_set k v d) = map fst d ++ [k].
Proof.
  induction d as [|[k0 v0] d IH]; simpl; [reflexivity|].
  intros H. destruct (String.eqb k k0) eqn:E.
  - apply String.eqb_eq in E; subst. exfalso; apply H; left; reflexivity.
  - simpl. f_equal. apply IH. intros Hin; apply H; right; exact Hin.
Qed.

Lemma dict_set_empty_lists k (d : result_dict) :
  Forall (fun p => snd p = []) d -> Forall (fun p => snd p = []) (dict_set k [] d).
Proof.
  induction d as [|[k0 v0] d IH]; simpl; intros H; [constructor; auto|].
  inversion H as [|? ? H0 H1]; subst.
  destruct (String.eqb k k0); constructor; auto.
Qed.

Lemma load_references_ok folder l :
  (forall f o, In (f, o) l -> is_reference_name f = true -> o <> OpenFails) ->
  NoDup (ref_paths folder l) ->
  forall acc s,
  (forall p, In p (ref_paths folder l) -> ~ In p (keys (st_result s))) ->
  exists refs, fst (load_references folder l acc s) = inr refs /\
    keys (st_result (snd (load_references folder l acc s))) =
      keys (st_result s) ++ ref_paths folder l /\
    (Forall (fun p => snd p = []) (st_result s) ->
     Forall (fun p => snd p = []) (st_result (snd (load_references folder l acc s)))).
Proof.
  induction l as [|[f o] l IH]; intros Hopen Hnd acc s Hfresh.
  - exists acc; simpl; rewrite app_nil_r; auto.
  - destruct (is_reference_name f) eqn:Ef.
    + destruct o as [|p].
      { exfalso. apply (Hopen f OpenFails); [left; reflexivity|exact Ef|reflexivity]. }
      assert (Heq : load_references folder ((f, Opened p) :: l) acc s =
                    load_references folder l (dict_set (os_path_join folder f) p acc)
                      (mkState (dict_set (os_path_join folder f) [] (st_result s)) (st_log s)))
        by (simpl; rewrite Ef; reflexivity).
      assert (Hrp : ref_paths folder ((f, Opened p) :: l) =
                    os_path_join folder f :: ref_paths folder l)
        by (unfold ref_paths; simpl; rewrite Ef; reflexivity).
      rewrite Heq. rewrite Hrp in Hnd, Hfresh |- *.
      inversion Hnd as [|? ? Hnotin Hnd']; subst.
      set (s' := mkState (dict_set (os_path_join folder f) [] (st_result s)) (st_log s)).
      assert (Hk : keys (st_result s') = keys (st_result s) ++ [os_path_join folder f]).
      { apply dict_set_new_keys. apply Hfresh; left; reflexivity. }
      destruct (IH (fun f' o' H => Hopen f' o' (or_intror H)) Hnd'
                  (dict_set (os_path_join folder f) p acc) s') as [refs [H1 [H2 H3]]].
      { intros q Hq. rewrite Hk. rewrite in_app_iff.
        intros [Hq'|[Hq'|[]]].
        - apply (Hfresh q); [right; exact Hq|exact Hq'].
        - subst q. contradiction. }
      exists refs. split; [exact H1|split].
      * rewrite H2, Hk, <- app_assoc. reflexivity.
      * intros H0. apply H3. apply dict_set_empty_lists. exact H0.
    + assert (Heq : load_references folder ((f, o) :: l) acc s = load_references folder l acc s)
        by (simpl; rewrite Ef; reflexivity).
      assert (Hrp : ref_paths folder ((f, o) :: l) = ref_paths folder l)
        by (unfold ref_paths; simpl; rewrite Ef; reflexivity).
      rewrite Heq. rewrite Hrp in Hnd, Hfresh |- *.
      apply IH; auto. intros f' o' H; apply Hopen; right; exact H.
Qed.

(** C8: once the references are loaded, the keys of [result] are exactly
    the paths of the loaded reference images, each mapped to an empty
    list; no step of the scan adds or removes a key, so at the end every
    reference is still a key, with an empty list when it has no match. *)
Theorem result_keys_are_loaded_references en folder T out t l :
  fs_root en = Some t -> ref_listing en = Some l ->
  (forall f o, In (f, o) l -> is_reference_name f = true -> o <> OpenFails) ->
  NoDup (ref_paths folder l) ->
  let s1 := snd (load_references folder l [] (mkState [] [ParseCompleted])) in
  keys (st_result s1) = ref_paths folder l /\
  Forall (fun p => snd p = []) (st_result s1) /\
  (forall b e refs s, keys (st_result (snd (traverse_file_entries en b e refs T out s))) =
                      keys (st_result s)) /\
  keys (final_result (main en folder T out)) = ref_paths folder l.
Proof.
  intros Hfs Hl Hopen Hnd.
  destruct (load_references_ok folder l Hopen Hnd [] (mkState [] [ParseCompleted]))
    as [refs [H1 [H2 H3]]]; [intros p _ []|].
  destruct (load_references folder l [] (mkState [] [ParseCompleted])) as [o s1'] eqn:HL.
  simpl in H1, H2, H3 |- *. subst o.
  split; [exact H2|split; [apply H3; constructor|split]].
  - intros b e refs' s. apply traverse_keys.
  - rewrite (main_setup en folder T out t l refs s1' Hfs Hl HL).
    pose proof (traverse_keys en refs T out t traverse_budget
                  (mkState (st_result s1') (st_log s1' ++ [RefsLoaded; RootLoaded; StartScan])))
      as Hk.
    destruct (traverse_file_entries _ _ _ _ _ _ _) as [[e|[]] s']; simpl in *;
      rewrite Hk; exact H2.
Qed.

Lemma result_keys_are_loaded_references_witness :
  fs_root nomatch_env = Some (DirE "" "/" [FileE "a.jpg" "/pics/a.jpg" (Some (Opened (Some (gray [[200]]))))]) /\
  ref_listing nomatch_env = Some [("ref1.jpg"%string, Opened (Some cand0))] /\
  let s1 := snd (load_references "refs" [("ref1.jpg"%string, Opened (Some cand0))] []
                   (mkState [] [ParseCompleted])) in
  keys (st_result s1) = ref_paths "refs" [("ref1.jpg"%string, Opened (Some cand0))] /\
  Forall (fun p => snd p = []) (st_result s1) /\
  (forall b e refs s, keys (st_result (snd (traverse_file_entries nomatch_env b e refs 10 EmptyString s))) =
                      keys (st_result s)) /\
  keys (final_result (main nomatch_env "refs" 10 EmptyString)) =
    ref_paths "refs" [("ref1.jpg"%string, Opened (Some cand0))].
Proof.
  split; [reflexivity|split; [reflexivity|]].
  apply (result_keys_are_loaded_references nomatch_env "refs" 10 EmptyString
           (DirE "" "/" [FileE "a.jpg" "/pics/a.jpg" (Some (Opened (Some (gray [[200]]))))])
           [("ref1.jpg"%string, Opened (Some cand0))]); try reflexivity.
  - intros f o [H|[]] _. injection H as <- <-. discriminate.
  - vm_compute. constructor; [intros []|constructor].
Defined.

(** ** C9: images of different dimensions *)

Lemma length_zip_with {A B C} (f : A -> B -> C) l1 l2 :
  length (zip_with f l1 l2) = Nat.min (length l1) (length l2).
Proof.
  revert l2; induction l1 as [|a l1 IH]; intros [|b l2]; simpl; auto.
Qed.

(** C9 (corrected): no dimension check exists and nothing crashes. Two
    8-bit images with the same band count are compared over their common
    top-left region (minimum height and width), the score being the mean
    over that region; differing band counts make the difference raise
    [Mismatch], which the per-candidate handler catches; and
    [is_image_similar] always returns normally. *)
Theorem mismatched_dimensions_compared_on_overlap img1 img2 :
  wf_image img1 -> wf_image img2 -> im_type img1 = UINT8 -> im_type img2 = UINT8 ->
  (im_bands img1 = im_bands img2 ->
     exists d, difference_outcome (Some img2) (Some img1) = inr d /\
       im_height d = Nat.min (im_height img2) (im_height img1) /\
       im_width d = Nat.min (im_width img2) (im_width img1) /\
       score (Some img1) (Some img2) = inr (np_mean d)) /\
  (im_bands img1 <> im_bands img2 -> score (Some img1) (Some img2) = inl Mismatch) /\
  (forall en n l fo refs T out s, fst (is_image_similar en n l fo refs T out s) = inr tt).
Proof.
  intros W1 W2 T1 T2. split; [|split; [|apply is_image_similar_ok]].
  - intros Hb. unfold score, difference_outcome, chop_difference.
    rewrite T1, T2, Hb, Nat.eqb_refl. simpl.
    eexists; split; [reflexivity|split; [|split; [|reflexivity]]].
    + unfold im_height; simpl. rewrite length_zip_with. reflexivity.
    + unfold im_width; simpl.
      destruct W1 as [_ [H1 _]], W2 as [_ [H2 _]]. unfold im_height in H1, H2.
      destruct (im_rows img1) as [|r1 rows1], (im_rows img2) as [|r2 rows2];
        simpl in *; try lia.
      apply length_zip_with.
  - intros Hb. unfold score, difference_outcome, chop_difference.
    rewrite T2, T1. simpl. apply Nat.eqb_neq in Hb. rewrite Nat.eqb_sym, Hb. reflexivity.
Qed.

Lemma mismatched_dimensions_compared_on_overlap_witness :
  wf_image wide_cand /\ wf_image cand0 /\ im_type wide_cand = UINT8 /\ im_type cand0 = UINT8 /\
  ((im_bands wide_cand = im_bands cand0 ->
     exists d, difference_outcome (Some cand0) (Some wide_cand) = inr d /\
       im_height d = Nat.min (im_height cand0) (im_height wide_cand) /\
       im_width d = Nat.min (im_width cand0) (im_width wide_cand) /\
       score (Some wide_cand) (Some cand0) = inr (np_mean d)) /\
  (im_bands wide_cand <> im_bands cand0 -> score (Some wide_cand) (Some cand0) = inl Mismatch) /\
  (forall en n l fo refs T out s, fst (is_image_similar en n l fo refs T out s) = inr tt)).
Proof.
  assert (Hw : wf_image wide_cand)
    by (unfold wf_image; simpl; repeat split; try lia; repeat constructor; lia).
  assert (Hc : wf_image cand0)
    by (unfold wf_image; simpl; repeat split; try lia; repeat constructor; lia).
  split; [exact Hw|split; [exact Hc|split; [reflexivity|split; [reflexivity|]]]].
  apply mismatched_dimensions_compared_on_overlap; auto.
Defined.

(** C9 counterexample: a 2x1 candidate and a 1x1 reference are compared
    on their common pixel and recorded as a match. *)
Lemma mismatched_dimensions_recorded_as_match :
  im_width wide_cand <> im_width cand0 /\
  st_result (snd (is_image_similar scenario_env "a.jpg" "/a.jpg"
                    (Some (Opened (Some wide_cand))) [("r"%string, Some cand0)] 10 EmptyString
                    (mkState [("r"%string, [])] []))) =
    [("r"%string, [("/a.jpg"%string, Num (0 # 1))])].
Proof. split; [discriminate|reflexivity]. Qed.

(** ** C10: one handler around the whole loop over references *)

Lemma after_append_result en name image out s :
  st_result (snd ((emit SimilarFound ;;
    (if negb (String.eqb out "") then image_save en (os_path_join out name) image
     else ret tt)) s)) = st_result s.
Proof.
  unfold bind, emit; simpl.
  destruct (negb (String.eqb out "")); [|reflexivity].
  rewrite image_save_eq. destruct image as [i|]; [destruct (save_ok _ _ i)|]; reflexivity.
Qed.

Lemma compare_result_extends en name location image T out r s k l :
  dict_lookup k (st_result s) = Some l ->
  exists l', dict_lookup k
    (st_result (snd (compare_with_reference en name location image T out r s))) =
    Some (l ++ l').
Proof.
  intros Hl. destruct r as [rn ri].
  destruct (score image ri) as [e|md] eqn:Hs.
  - rewrite (compare_raise_eq _ _ _ _ _ _ _ _ _ _ Hs). exists []. rewrite app_nil_r. exact Hl.
  - destruct (py_lt md T) eqn:Hlt.
    + unfold compare_with_reference, bind at 1.
      rewrite img_similarity_check_eq, Hs, Hlt. simpl.
      unfold bind at 1, result_append.
      destruct (dict_lookup rn (st_result s)) as [lr|] eqn:Hr.
      * rewrite after_append_result. simpl. rewrite dict_lookup_set.
        destruct (String.eqb k rn) eqn:E.
        -- apply String.eqb_eq in E; subst k. rewrite Hr in Hl. injection Hl as <-.
           exists [(location, md)]. reflexivity.
        -- exists []. rewrite app_nil_r. exact Hl.
      * exists []. rewrite app_nil_r. exact Hl.
    + rewrite (compare_nomatch_eq _ _ _ _ _ _ _ _ _ _ Hs Hlt).
      exists []. rewrite app_nil_r. exact Hl.
Qed.

Lemma for_each_cons_raise {A} (x : A) l f s e s' :
  f x s = (inl e, s') -> for_each (x :: l) f s = (inl e, s').
Proof. intros H. simpl. unfold bind. rewrite H. reflexivity. Qed.

(** C10 (confirmed): if the comparisons against the references before [r]
    complete (state [s1]) and the comparison against [r] raises (scoring or
    export, leaving state [s2]), then [is_image_similar] returns normally
    with exactly [s2] plus one logged error, whatever references follow [r]
    (none of them is compared), and every record list present in [s1] is
    kept, only possibly extended by [r]'s own append. *)
Theorem failure_stops_remaining_references en name location img pre r post T out s s1 e :
  is_candidate_location location = true ->
  for_each pre (compare_with_reference en name location img T out) s = (inr tt, s1) ->
  fst (compare_with_reference en name location img T out r s1) = inl e ->
  let s2 := snd (compare_with_reference en name location img T out r s1) in
  is_image_similar en name location (Some (Opened img)) (pre ++ r :: post) T out s =
    (inr tt, mkState (st_result s2) (st_log s2 ++ [ErrComparing location])) /\
  (forall k l, dict_lookup k (st_result s1) = Some l ->
     exists l', dict_lookup k (st_result s2) = Some (l ++ l')).
Proof.
  intros Hloc Hpre Hr s2. split.
  - unfold is_image_similar, try_except. rewrite Hloc. simpl.
    unfold bind at 1. simpl. rewrite for_each_app. unfold bind at 1. rewrite Hpre.
    destruct (compare_with_reference en name location img T out r s1) as [o s'] eqn:Ec.
    simpl in Hr. subst o. rewrite (for_each_cons_raise _ post _ _ _ _ Ec).
    subst s2. reflexivity.
  - intros k l Hl. apply compare_result_extends. exact Hl.
Qed.

Lemma failure_stops_remaining_references_witness :
  is_candidate_location "/a.jpg" = true /\
  for_each [("r1"%string, Some cand0)]
    (compare_with_reference scenario_env "a.jpg" "/a.jpg" (Some cand0) 10 EmptyString)
    (mkState [("r1"%string, []); ("r2"%string, []); ("r3"%string, [])] []) =
    (inr tt, mkState [("r1"%string, [("/a.jpg"%string, Num (0 # 1))]);
                      ("r2"%string, []); ("r3"%string, [])] [SimilarFound]) /\
  fst (compare_with_reference scenario_env "a.jpg" "/a.jpg" (Some cand0) 10 EmptyString
         ("r2"%string, Some rgb_img)
         (mkState [("r1"%string, [("/a.jpg"%string, Num (0 # 1))]);
                   ("r2"%string, []); ("r3"%string, [])] [SimilarFound])) = inl Mismatch /\
  (let s2 := snd (compare_with_reference scenario_env "a.jpg" "/a.jpg" (Some cand0) 10
                    EmptyString ("r2"%string, Some rgb_img)
                    (mkState [("r1"%string, [("/a.jpg"%string, Num (0 # 1))]);
                              ("r2"%string, []); ("r3"%string, [])] [SimilarFound])) in
   is_image_similar scenario_env "a.jpg" "/a.jpg" (Some (Opened (Some cand0)))
     ([("r1"%string, Some cand0)] ++ ("r2"%string, Some rgb_img) :: [("r3"%string, Some cand0)])
     10 EmptyString (mkState [("r1"%string, []); ("r2"%string, []); ("r3"%string, [])] []) =
   (inr tt, mkState (st_result s2) (st_log s2 ++ [ErrComparing "/a.jpg"])) /\
   (forall k l, dict_lookup k (st_result (mkState [("r1"%string, [("/a.jpg"%string, Num (0 # 1))]);
                   ("r2"%string, []); ("r3"%string, [])] [SimilarFound])) = Some l ->
      exists l', dict_lookup k (st_result s2) = Some (l ++ l'))).
Proof.
  split; [reflexivity|split; [reflexivity|split; [reflexivity|]]].
  apply (failure_stops_remaining_references _ _ _ _ _ _ _ _ _ _ _ Mismatch); reflexivity.
Defined.

(** ** Further properties: command line, recursion limit, reference
    loading, scores and file names *)

Lemma do_shorts_acc so acc os args :
  do_shorts so acc os args =
  option_map (fun p => (acc ++ fst p, snd p)) (do_shorts so [] os args).
Proof.
  revert acc; induction os as [|c os IH]; intros acc; simpl; [rewrite app_nil_r; reflexivity|].
  destruct (short_has_arg c so) as [[|]|]; simpl.
  - destruct (String.eqb os ""); [destruct args|]; reflexivity.
  - rewrite IH, (IH [_]).
    destruct (do_shorts so [] os args) as [[o r]|]; simpl; [|reflexivity].
    rewrite <- app_assoc. reflexivity.
  - reflexivity.
Qed.

Lemma getopt_loop_acc so fuel acc args :
  getopt_loop so fuel acc args =
  option_map (fun p => (acc ++ fst p, snd p)) (getopt_loop so fuel [] args).
Proof.
  revert acc args; induction fuel as [|fuel IH]; intros acc args; simpl;
    [rewrite app_nil_r; reflexivity|].
  destruct args as [|a args]; simpl; [rewrite app_nil_r; reflexivity|].
  destruct (String.prefix "-" a && negb (String.eqb a "-"))%bool;
    [|simpl; rewrite app_nil_r; reflexivity].
  destruct (String.eqb a "--"); [simpl; rewrite app_nil_r; reflexivity|].
  destruct (String.prefix "--" a); [reflexivity|].
  rewrite do_shorts_acc.
  destruct (do_shorts so [] (str_tail a) args) as [[o r]|]; simpl; [|reflexivity].
  rewrite IH, (IH o). destruct (getopt_loop so fuel [] r) as [[o' r']|]; simpl;
    rewrite ?app_assoc; reflexivity.
Qed.

Lemma getopt_loop_render opts : forall acc rest fuel,
  Forall opt_wf opts ->
  (List.length (concat (map render_opt opts) ++ rest) <= fuel)%nat ->
  getopt_loop "hd:r:i:o:" fuel acc (concat (map render_opt opts) ++ rest) =
  getopt_loop "hd:r:i:o:" (fuel - List.length opts) (acc ++ opts) rest.
Proof.
  induction opts as [|o opts IH]; intros acc rest fuel Hwf Hlen.
  - simpl. rewrite app_nil_r, Nat.sub_0_r. reflexivity.
  - inversion Hwf as [|? ? Ho Hwf']; subst.
    destruct fuel as [|fuel].
    { exfalso. destruct Ho as [->|Hin]; unfold render_opt in Hlen; simpl in Hlen; [lia|].
      destruct (String.eqb (fst o) "-h"); simpl in Hlen; lia. }
    destruct Ho as [->|Hin].
    + simpl. rewrite (IH (acc ++ [("-h", "")]%string) rest fuel Hwf')
        by (simpl in Hlen; lia).
      rewrite <- app_assoc. reflexivity.
    + destruct o as [f v]. simpl in Hin.
      assert (Hstep : forall X, getopt_loop "hd:r:i:o:" (S fuel) acc (render_opt (f, v) ++ X) =
                                getopt_loop "hd:r:i:o:" fuel (acc ++ [(f, v)]) X).
      { intros X. destruct Hin as [<-|[<-|[<-|[<-|[]]]]]; reflexivity. }
      assert (Hl2 : List.length (render_opt (f, v)) = 2%nat)
        by (destruct Hin as [<-|[<-|[<-|[<-|[]]]]]; reflexivity).
      change (concat (map render_opt ((f, v) :: opts)))
        with (render_opt (f, v) ++ concat (map render_opt opts)) in Hlen |- *.
      rewrite !length_app, Hl2 in Hlen.
      rewrite <- app_assoc, Hstep.
      rewrite (IH (acc ++ [(f, v)]) rest fuel Hwf').
      * rewrite <- app_assoc. reflexivity.
      * rewrite length_app. lia.
Qed.

Lemma render_length_ge opts : Forall opt_wf opts ->
  (List.length opts <= List.length (concat (map render_opt opts)))%nat.
Proof.
  induction opts as [|o opts IH]; intros Hwf; simpl; [lia|].
  inversion Hwf as [|? ? Ho Hwf']; subst. rewrite length_app.
  specialize (IH Hwf').
  assert (H1 : (1 <= List.length (render_opt o))%nat)
    by (unfold render_opt; destruct (String.eqb _ _); simpl; lia).
  lia.
Qed.

(** X1: options written back as flags followed by their values are read
    again by [getopt] as exactly those options, whatever the values (even
    empty or starting with a dash); reading stops at [--], which is
    dropped, or before an argument that is [-] or does not start with a
    dash, all later arguments being left unparsed. *)
Theorem getopt_reads_back_options opts rest :
  Forall opt_wf opts ->
  getopt (concat (map render_opt opts) ++ "--"%string :: rest) "hd:r:i:o:" = Some (opts, rest) /\
  (stops_options rest ->
   getopt (concat (map render_opt opts) ++ rest) "hd:r:i:o:" = Some (opts, rest)).
Proof.
  intros Hwf. pose proof (render_length_ge opts Hwf) as Hge. unfold getopt. split.
  - rewrite getopt_loop_render by (auto; lia).
    rewrite length_app. simpl.
    replace (List.length (concat (map render_opt opts)) + S (List.length rest) - List.length opts)%nat
      with (S (List.length (concat (map render_opt opts)) + List.length rest - List.length opts))
      by lia.
    reflexivity.
  - intros Hs. rewrite getopt_loop_render by (auto; lia). simpl.
    destruct (List.length (concat (map render_opt opts) ++ rest) - List.length opts)%nat;
      [reflexivity|].
    destruct rest as [|a rest]; [reflexivity|]. simpl in Hs. simpl.
    destruct Hs as [Hs| ->]; [rewrite Hs; reflexivity|reflexivity].
Qed.

Lemma getopt_reads_back_options_witness :
  Forall opt_wf [("-d", "disk.dd"); ("-h", ""); ("-i", "5")]%string /\
  getopt (concat (map render_opt [("-d", "disk.dd"); ("-h", ""); ("-i", "5")]%string)
            ++ "--"%string :: ["x"%string]) "hd:r:i:o:" =
    Some ([("-d", "disk.dd"); ("-h", ""); ("-i", "5")]%string, ["x"%string]) /\
  (stops_options ["x"%string] ->
   getopt (concat (map render_opt [("-d", "disk.dd"); ("-h", ""); ("-i", "5")]%string)
             ++ ["x"%string]) "hd:r:i:o:" =
     Some ([("-d", "disk.dd"); ("-h", ""); ("-i", "5")]%string, ["x"%string])).
Proof.
  assert (H : Forall opt_wf [("-d", "disk.dd"); ("-h", ""); ("-i", "5")]%string).
  { repeat apply Forall_cons; try apply Forall_nil; unfold opt_wf; cbn; auto 6. }
  split; [exact H|]. exact (getopt_reads_back_options _ ["x"%string] H).
Defined.

Lemma getopt_render_stops opts rest :
  Forall opt_wf opts -> stops_options rest ->
  getopt (concat (map render_opt opts) ++ rest) "hd:r:i:o:" = Some (opts, rest).
Proof.
  intros Hwf Hs. pose proof (render_length_ge opts Hwf) as Hge. unfold getopt.
  rewrite getopt_loop_render by (auto; lia). simpl.
  destruct (List.length (concat (map render_opt opts) ++ rest) - List.length opts)%nat;
    [reflexivity|].
  destruct rest as [|a rest]; [reflexivity|]. simpl in Hs. simpl.
  destruct Hs as [Hs| ->]; [rewrite Hs; reflexivity|reflexivity].
Qed.

Arguments py_int : simpl never.

Lemma option_loop_values prog mk opts : forall c,
  Forall (fun o => In (fst o) four_flags) opts ->
  Forall (fun o => fst o = "-i"%string -> py_int (snd o) <> None) opts ->
  Forall (fun o => fst o = "-o"%string -> mk (snd o) = true) opts ->
  option_loop prog mk opts c =
  inr (mkConfig (last_arg "-d" opts (disk_image_path c))
                (last_arg "-r" opts (reference_image_folder_path c))
                (last_int opts (similarity_threshold c))
                (last_arg "-o" opts (output_folder c))).
Proof.
  induction opts as [|[f v] opts IH]; intros c Hf Hi Ho; [destruct c; reflexivity|].
  inversion Hf as [|? ? Hf1 Hf']; inversion Hi as [|? ? Hi1 Hi']; inversion Ho as [|? ? Ho1 Ho'];
    subst; simpl in Hf1, Hi1, Ho1.
  destruct Hf1 as [<-|[<-|[<-|[<-|[]]]]]; simpl.
  - rewrite IH by auto. reflexivity.
  - rewrite IH by auto. reflexivity.
  - destruct (py_int v) as [x|] eqn:E; [|exfalso; exact (Hi1 eq_refl eq_refl)].
    rewrite IH by auto. reflexivity.
  - rewrite (Ho1 eq_refl). rewrite IH by auto. reflexivity.
Qed.

(** X2: a command line made of [-d], [-r], [-i] and [-o] options, each
    flag followed by its value, optionally followed by arguments at which
    getopt stops (all of them then ignored, options included), runs the
    scan with the last value given for each option (threshold 10 and no
    output folder by default), provided every [-i] value is an integer and
    every [-o] folder can be created; if the last [-d] or [-r] value is
    empty or missing it prints the missing-parameter notice and the usage
    and exits with code 2 instead. *)
Theorem cli_runs_with_last_values prog opts rest mk world :
  opts <> [] ->
  Forall (fun o => In (fst o) four_flags) opts ->
  Forall (fun o => fst o = "-i"%string -> py_int (snd o) <> None) opts ->
  Forall (fun o => fst o = "-o"%string -> mk (snd o) = true) opts ->
  stops_options rest ->
  cli_main (prog :: concat (map render_opt opts) ++ rest) mk world =
  (let D := last_arg "-d" opts "" in
   let R := last_arg "-r" opts "" in
   if (String.eqb D "" || String.eqb R "")%bool
   then Exited 2 [MissingParams; Usage prog]
   else Ran (main (world D R) R (last_int opts 10) (last_arg "-o" opts ""))).
Proof.
  intros Hne Hf Hi Ho Hs.
  assert (Hwf : Forall opt_wf opts)
    by (eapply Forall_impl; [|exact Hf]; intros o H; right; exact H).
  assert (Hlen : (2 <= List.length (concat (map render_opt opts)))%nat).
  { destruct opts as [|o opts]; [contradiction|]. inversion Hf as [|? ? H1 _]; subst.
    change (concat (map render_opt (o :: opts)))
      with (render_opt o ++ concat (map render_opt opts)).
    rewrite length_app. unfold render_opt.
    destruct H1 as [E|[E|[E|[E|[]]]]]; rewrite <- E; simpl; lia. }
  unfold cli_main. simpl hd. simpl tl.
  replace (Nat.ltb (List.length (prog :: concat (map render_opt opts) ++ rest)) 3) with false
    by (symmetry; apply Nat.ltb_ge; simpl; rewrite length_app; lia).
  rewrite getopt_render_stops by auto.
  rewrite option_loop_values by auto. reflexivity.
Qed.

Lemma cli_runs_with_last_values_witness :
  [("-d", "disk.dd"); ("-r", "refs"); ("-i", " 25 ")]%string <> [] /\
  Forall (fun o => In (fst o) four_flags) [("-d", "disk.dd"); ("-r", "refs"); ("-i", " 25 ")]%string /\
  Forall (fun o => fst o = "-i"%string -> py_int (snd o) <> None)
    [("-d", "disk.dd"); ("-r", "refs"); ("-i", " 25 ")]%string /\
  Forall (fun o => fst o = "-o"%string -> (fun _ : string => true) (snd o) = true)
    [("-d", "disk.dd"); ("-r", "refs"); ("-i", " 25 ")]%string /\
  stops_options [] /\
  cli_main ("fhi.py" :: concat (map render_opt
              [("-d", "disk.dd"); ("-r", "refs"); ("-i", " 25 ")]%string) ++ [])%string
    (fun _ => true) (fun _ _ => scenario_env) =
  Ran (main scenario_env "refs" 25 "").
Proof.
  assert (H1 : [("-d", "disk.dd"); ("-r", "refs"); ("-i", " 25 ")]%string <> []) by discriminate.
  assert (H2 : Forall (fun o => In (fst o) four_flags)
                 [("-d", "disk.dd"); ("-r", "refs"); ("-i", " 25 ")]%string)
    by (repeat apply Forall_cons; try apply Forall_nil; cbn; auto 6).
  assert (H3 : Forall (fun o => fst o = "-i"%string -> py_int (snd o) <> None)
                 [("-d", "disk.dd"); ("-r", "refs"); ("-i", " 25 ")]%string).
  { repeat apply Forall_cons; try apply Forall_nil; cbn [fst snd]; intros Hf;
      first [discriminate Hf | vm_compute; discriminate]. }
  assert (H4 : Forall (fun o => fst o = "-o"%string -> (fun _ : string => true) (snd o) = true)
                 [("-d", "disk.dd"); ("-r", "refs"); ("-i", " 25 ")]%string)
    by (repeat apply Forall_cons; try apply Forall_nil; reflexivity).
  assert (H5 : stops_options []) by exact I.
  do 5 (split; [assumption|]).
  exact (cli_runs_with_last_values "fhi.py" _ [] (fun _ => true) (fun _ _ => scenario_env)
           H1 H2 H3 H4 H5).
Defined.

Lemma short_has_arg_in c so b :
  short_has_arg c so = Some b -> In c (list_ascii_of_string so).
Proof.
  induction so as [|c' so IH]; simpl; [discriminate|].
  destruct (Ascii.eqb c c' && negb (Ascii.eqb c' ":"))%bool eqn:E.
  - intros _. apply andb_true_iff in E. destruct E as [E _].
    apply Ascii.eqb_eq in E. left; auto.
  - intros H; right; auto.
Qed.

Lemma short_has_arg_not_colon c so b :
  short_has_arg c so = Some b -> c <> ":"%char.
Proof.
  induction so as [|c' so IH]; simpl; [discriminate|].
  destruct (Ascii.eqb c c' && negb (Ascii.eqb c' ":"))%bool eqn:E; [|auto].
  intros _ ->. apply andb_true_iff in E. destruct E as [E1 E2].
  apply Ascii.eqb_eq in E1. subst. discriminate.
Qed.

Lemma flag_of_shortopts c b :
  short_has_arg c "hd:r:i:o:" = Some b -> In (String "-" (String c "")) five_flags.
Proof.
  intros H. pose proof (short_has_arg_in _ _ _ H) as Hin.
  pose proof (short_has_arg_not_colon _ _ _ H) as Hc.
  simpl in Hin. unfold five_flags.
  repeat (destruct Hin as [<-|Hin];
            [first [simpl; tauto | exfalso; apply Hc; reflexivity]|]).
  destruct Hin.
Qed.

Lemma do_shorts_flags so acc os args opts r :
  so = "hd:r:i:o:"%string ->
  do_shorts so acc os args = Some (opts, r) ->
  Forall (fun o => In (fst o) five_flags) acc ->
  Forall (fun o => In (fst o) five_flags) opts.
Proof.
  intros Hso. revert acc; induction os as [|c os IH]; intros acc H Hacc; simpl in H.
  - injection H as <- <-. exact Hacc.
  - destruct (short_has_arg c so) as [[|]|] eqn:E; [| |discriminate]; rewrite Hso in E.
    + assert (Hf : In (String "-" (String c "")) five_flags) by (eapply flag_of_shortopts; eauto).
      destruct (String.eqb os "") eqn:Eo.
      * destruct args as [|a0 args0]; [discriminate|].
        injection H as <- <-. apply Forall_app; split; auto.
      * injection H as <- <-. apply Forall_app; split; auto.
    + assert (Hf : In (String "-" (String c "")) five_flags) by (eapply flag_of_shortopts; eauto).
      eapply IH; [exact H|]. apply Forall_app; split; auto.
Qed.

Lemma getopt_loop_flags fuel : forall acc args opts r,
  getopt_loop "hd:r:i:o:" fuel acc args = Some (opts, r) ->
  Forall (fun o => In (fst o) five_flags) acc ->
  Forall (fun o => In (fst o) five_flags) opts.
Proof.
  induction fuel as [|fuel IH]; intros acc args opts r H Hacc; simpl in H.
  - injection H as <- <-. exact Hacc.
  - destruct args as [|a args]; [injection H as <- <-; exact Hacc|].
    destruct (String.prefix "-" a && negb (String.eqb a "-"))%bool;
      [|injection H as <- <-; exact Hacc].
    destruct (String.eqb a "--"); [injection H as <- <-; exact Hacc|].
    destruct (String.prefix "--" a); [discriminate|].
    destruct (do_shorts "hd:r:i:o:" acc (str_tail a) args) as [[o r']|] eqn:E; [|discriminate].
    eapply IH; [exact H|]. eapply do_shorts_flags; eauto.
Qed.

Lemma option_loop_inv prog mk opts : forall c c',
  Forall (fun o => In (fst o) five_flags) opts ->
  option_loop prog mk opts c = inr c' ->
  Forall (fun o => In (fst o) four_flags /\ (fst o = "-i"%string -> py_int (snd o) <> None) /\
                   (fst o = "-o"%string -> mk (snd o) = true)) opts /\
  c' = mkConfig (last_arg "-d" opts (disk_image_path c))
                (last_arg "-r" opts (reference_image_folder_path c))
                (last_int opts (similarity_threshold c))
                (last_arg "-o" opts (output_folder c)).
Proof.
  induction opts as [|[f v] opts IH]; intros c c' Hf H.
  - injection H as <-. destruct c; split; [constructor|reflexivity].
  - inversion Hf as [|? ? Hf1 Hf']; subst. simpl in Hf1.
    destruct Hf1 as [<-|[<-|[<-|[<-|[<-|[]]]]]]; simpl in H.
    + discriminate.
    + destruct (IH _ _ Hf' H) as [H1 H2]. split; [constructor; auto|].
      * simpl; split; [tauto|split; discriminate].
      * exact H2.
    + destruct (IH _ _ Hf' H) as [H1 H2]. split; [constructor; auto|].
      * simpl; split; [tauto|split; discriminate].
      * exact H2.
    + destruct (py_int v) as [x|] eqn:E; [|discriminate].
      destruct (IH _ _ Hf' H) as [H1 H2]. split; [constructor; auto|].
      * simpl; split; [tauto|split; [congruence|discriminate]].
      * rewrite H2. unfold last_int at 2. simpl. rewrite E. reflexivity.
    + destruct (mk v) eqn:E; [|discriminate].
      destruct (IH _ _ Hf' H) as [H1 H2]. split; [constructor; auto|].
      * simpl; split; [tauto|split; [discriminate|auto]].
      * exact H2.
Qed.

(** X3: the script runs the scan only if it has at least two arguments,
    getopt accepts them, no [-h] is given, every [-i] value is an
    integer, every [-o] folder could be created, and the last [-d] and
    [-r] values are non-empty; the scan then uses the last value given
    for each option. *)
Theorem cli_scans_only_with_valid_options argv mk world r :
  cli_main argv mk world = Ran r ->
  exists opts args,
    (3 <= List.length argv)%nat /\
    getopt (tl argv) "hd:r:i:o:" = Some (opts, args) /\
    Forall (fun o => In (fst o) four_flags /\ (fst o = "-i"%string -> py_int (snd o) <> None) /\
                     (fst o = "-o"%string -> mk (snd o) = true)) opts /\
    last_arg "-d" opts "" <> ""%string /\ last_arg "-r" opts "" <> ""%string /\
    r = main (world (last_arg "-d" opts "") (last_arg "-r" opts ""))
             (last_arg "-r" opts "") (last_int opts 10) (last_arg "-o" opts "").
Proof.
  unfold cli_main. intros H.
  destruct (Nat.ltb (List.length argv) 3) eqn:Hl; [discriminate|].
  apply Nat.ltb_ge in Hl.
  destruct (getopt (tl argv) "hd:r:i:o:") as [[opts args]|] eqn:Hg; [|discriminate].
  destruct (option_loop (hd ""%string argv) mk opts default_config) as [[code lines]|c] eqn:Ho;
    [discriminate|].
  assert (Hf : Forall (fun o => In (fst o) five_flags) opts)
    by (unfold getopt in Hg; eapply getopt_loop_flags; [exact Hg|constructor]).
  destruct (option_loop_inv _ _ _ _ _ Hf Ho) as [H1 ->]. simpl in H.
  destruct (String.eqb (last_arg "-d" opts "") "")%string eqn:Ed; [discriminate|].
  destruct (String.eqb (last_arg "-r" opts "") "")%string eqn:Er; [discriminate|].
  injection H as <-. apply String.eqb_neq in Ed, Er.
  exists opts, args. repeat split; auto.
Qed.

Lemma cli_scans_only_with_valid_options_witness :
  cli_main ["fhi.py"; "-d"; "disk.dd"; "-r"; "refs"]%string (fun _ => true)
    (fun _ _ => scenario_env) = Ran (main scenario_env "refs" 10 "") /\
  exists opts args,
    (3 <= List.length ["fhi.py"; "-d"; "disk.dd"; "-r"; "refs"]%string)%nat /\
    getopt ["-d"; "disk.dd"; "-r"; "refs"]%string "hd:r:i:o:" = Some (opts, args) /\
    Forall (fun o => In (fst o) four_flags /\ (fst o = "-i"%string -> py_int (snd o) <> None) /\
                     (fst o = "-o"%string -> (fun _ : string => true) (snd o) = true)) opts /\
    last_arg "-d" opts "" <> ""%string /\ last_arg "-r" opts "" <> ""%string /\
    main scenario_env "refs" 10 "" =
      main ((fun _ _ => scenario_env) (last_arg "-d" opts "") (last_arg "-r" opts ""))
           (last_arg "-r" opts "") (last_int opts 10) (last_arg "-o" opts "").
Proof.
  assert (H : cli_main ["fhi.py"; "-d"; "disk.dd"; "-r"; "refs"]%string (fun _ => true)
                (fun _ _ => scenario_env) = Ran (main scenario_env "refs" 10 "")) by reflexivity.
  split; [exact H|]. exact (cli_scans_only_with_valid_options _ _ _ _ H).
Defined.

Lemma getopt_help_step fuel acc X :
  getopt_loop "hd:r:i:o:" (S fuel) acc ("-h"%string :: X) =
  getopt_loop "hd:r:i:o:" fuel (acc ++ [("-h", "")%string]) X.
Proof. reflexivity. Qed.

(** X4: [-h] as first argument prints the usage; it exits with code 1
    when it is the only argument (fewer than two arguments), with code 2
    when getopt rejects the arguments that follow it (they are parsed
    first), and with code 0 otherwise. *)
Theorem help_option_exit_codes prog rest mk world :
  cli_main (prog :: "-h"%string :: rest) mk world =
  match rest with
  | [] => Exited 1 [Usage prog]
  | _ => match getopt rest "hd:r:i:o:" with
         | None => Exited 2 [Usage prog]
         | Some _ => Exited 0 [Usage prog]
         end
  end.
Proof.
  destruct rest as [|a rest]; [reflexivity|].
  unfold cli_main. simpl hd. simpl tl.
  replace (Nat.ltb (List.length (prog :: "-h"%string :: a :: rest)) 3) with false
    by (symmetry; apply Nat.ltb_ge; simpl; lia).
  unfold getopt at 1.
  replace (List.length ("-h"%string :: a :: rest)) with (S (List.length (a :: rest))) by reflexivity.
  rewrite getopt_help_step, getopt_loop_acc. unfold getopt.
  destruct (getopt_loop "hd:r:i:o:" (List.length (a :: rest)) [] (a :: rest)) as [[o r]|];
    reflexivity.
Qed.

Lemma prefix_dd a : String.prefix "--" a = true -> exists s, a = String "-" (String "-" s).
Proof.
  intros H. apply String.prefix_correct in H.
  destruct a as [|c1 [|c2 s]]; simpl in H; try discriminate.
  injection H as -> ->. eauto.
Qed.

(** X5: a long option ([--name], getopt being given no long option) after
    any well-formed options is rejected: the usage is printed and the
    exit code is 2, whatever follows. *)
Theorem long_option_rejected prog opts a rest mk world :
  Forall opt_wf opts -> String.prefix "--" a = true -> a <> "--"%string ->
  (opts <> [] \/ rest <> []) ->
  cli_main (prog :: concat (map render_opt opts) ++ a :: rest) mk world = Exited 2 [Usage prog].
Proof.
  intros Hwf Hp Hn Hlen. pose proof (render_length_ge opts Hwf) as Hge.
  assert (Hl : (1 <= List.length (concat (map render_opt opts)) + List.length rest)%nat).
  { destruct Hlen as [Ho|Hr]; [destruct opts as [|p opts']; [contradiction|cbn [List.length] in Hge; lia]|].
    destruct rest; [contradiction|simpl; lia]. }
  unfold cli_main. simpl hd. simpl tl.
  replace (Nat.ltb (List.length (prog :: concat (map render_opt opts) ++ a :: rest)) 3) with false
    by (symmetry; apply Nat.ltb_ge; simpl; rewrite length_app; simpl; lia).
  unfold getopt. rewrite getopt_loop_render by (auto; lia).
  rewrite length_app. simpl List.length.
  replace (List.length (concat (map render_opt opts)) + S (List.length rest) - List.length opts)%nat
    with (S (List.length (concat (map render_opt opts)) + List.length rest - List.length opts))
    by lia.
  destruct (prefix_dd a Hp) as [s ->].
  destruct s as [|c3 s]; [contradiction|]. reflexivity.
Qed.

Lemma long_option_rejected_witness :
  Forall opt_wf [] /\ String.prefix "--" "--help" = true /\ "--help"%string <> "--"%string /\
  (([] : list (string * string)) <> [] \/ ["x"%string] <> []) /\
  cli_main ("fhi.py" :: concat (map render_opt []) ++ "--help" :: ["x"])%string
    (fun _ => true) (fun _ _ => scenario_env) = Exited 2 [Usage "fhi.py"].
Proof.
  assert (H1 : Forall opt_wf []) by apply Forall_nil.
  assert (H2 : String.prefix "--" "--help" = true) by reflexivity.
  assert (H3 : "--help"%string <> "--"%string) by discriminate.
  assert (H4 : ([] : list (string * string)) <> [] \/ ["x"%string] <> [])
    by (right; discriminate).
  do 4 (split; [assumption|]).
  exact (long_option_rejected "fhi.py" [] "--help" ["x"%string] (fun _ => true)
           (fun _ _ => scenario_env) H1 H2 H3 H4).
Defined.

Lemma lstrip_spaces_app ws s :
  all_spaces ws = true -> lstrip_spaces (ws ++ s) = lstrip_spaces s.
Proof.
  induction ws as [|c ws IH]; cbn [append lstrip_spaces all_spaces]; [reflexivity|].
  intros H. apply andb_true_iff in H. destruct H as [H1 H2]. rewrite H1. auto.
Qed.

Lemma digit_char d : (d < 10)%nat -> nat_of_ascii (ascii_of_nat (48 + d)) = (48 + d)%nat.
Proof. intros H. apply nat_ascii_embedding. lia. Qed.

Lemma digit_is_digit d : (d < 10)%nat -> is_digit (ascii_of_nat (48 + d)) = true.
Proof.
  intros H. unfold is_digit. rewrite digit_char by exact H.
  apply andb_true_iff; split; apply Nat.leb_le; lia.
Qed.

Lemma digit_not_space d : (d < 10)%nat -> py_isspace (ascii_of_nat (48 + d)) = false.
Proof.
  intros H. unfold py_isspace. rewrite digit_char by exact H.
  repeat (destruct d as [|d]; [reflexivity|]). lia.
Qed.

Lemma scan_decimal_cons c s acc nd p :
  scan_decimal (String c s) acc nd p =
  if is_digit c then
    scan_decimal s (acc * 10 + Z.of_nat (nat_of_ascii c - 48)) (S nd) true
  else if Ascii.eqb c "_"%char then
    (if p then scan_decimal s acc nd false else None)
  else if p then Some (acc, nd, String c s) else None.
Proof. reflexivity. Qed.

Lemma scan_decimal_digits ds : forall s acc nd p,
  Forall (fun d => d < 10)%nat ds ->
  scan_decimal (digits_string ds ++ s) acc nd p =
  scan_decimal s (fold_left (fun a d => a * 10 + Z.of_nat d) ds acc)
    (List.length ds + nd) (match ds with [] => p | _ => true end).
Proof.
  induction ds as [|d ds IH]; intros s acc nd p Hd; [reflexivity|].
  inversion Hd as [|? ? H1 H2]; subst.
  change (digits_string (d :: ds) ++ s)%string
    with (String (ascii_of_nat (48 + d)) (digits_string ds ++ s)).
  rewrite scan_decimal_cons, digit_is_digit, digit_char by exact H1.
  rewrite IH by exact H2. cbn [fold_left List.length].
  replace (48 + d - 48)%nat with d by lia.
  replace (List.length ds + S nd)%nat with (S (List.length ds + nd)) by lia.
  destruct ds; reflexivity.
Qed.

Lemma scan_decimal_end v nd ws :
  all_spaces ws = true -> scan_decimal ws v nd true = Some (v, nd, ws).
Proof.
  destruct ws as [|c ws]; [reflexivity|]. rewrite scan_decimal_cons. cbn [all_spaces].
  intros H. apply andb_true_iff in H. destruct H as [H _].
  assert (Hd : is_digit c = false).
  { unfold py_isspace, is_digit in *. remember (nat_of_ascii c) as n.
    apply Bool.not_true_is_false. intros Hd. apply andb_true_iff in Hd.
    destruct Hd as [Hd1 Hd2]. apply Nat.leb_le in Hd1, Hd2.
    repeat rewrite Bool.orb_true_iff in H. repeat rewrite andb_true_iff in H.
    repeat rewrite Nat.leb_le in H. repeat rewrite Nat.eqb_eq in H. lia. }
  assert (Hu : Ascii.eqb c "_" = false).
  { apply Bool.not_true_is_false. intros Hu. apply Ascii.eqb_eq in Hu. subst c.
    discriminate H. }
  rewrite Hd, Hu. reflexivity.
Qed.

Lemma lstrip_spaces_cons c s :
  lstrip_spaces (String c s) = if py_isspace c then lstrip_spaces s else String c s.
Proof. reflexivity. Qed.

(** X6: [int()] of the [-i] value reads any non-empty string of at most
    4300 decimal digits (leading zeros allowed), with an optional [+] or
    [-] sign and surrounding whitespace (tab, line feed, vertical tab,
    form feed, carriage return, space, U+0085 or U+00A0), as its value,
    and refuses more than 4300 digits. *)
Theorem int_reads_decimal_literals ws1 ws2 sign ds :
  all_spaces ws1 = true -> all_spaces ws2 = true ->
  In sign [""; "+"; "-"]%string -> ds <> [] -> Forall (fun d => d < 10)%nat ds ->
  py_int (ws1 ++ sign ++ digits_string ds ++ ws2) =
  if Nat.leb (List.length ds) max_str_digits
  then Some ((if String.eqb sign "-" then -1 else 1) * digits_value ds)
  else None.
Proof.
  intros H1 H2 Hs Hne Hd. unfold py_int. rewrite lstrip_spaces_app by exact H1.
  generalize max_str_digits as m; intros m.
  assert (Hsc : scan_decimal (digits_string ds ++ ws2) 0 0 false =
                Some (digits_value ds, List.length ds, ws2)).
  { rewrite scan_decimal_digits by exact Hd. rewrite Nat.add_0_r.
    destruct ds as [|d ds']; [contradiction|]. apply scan_decimal_end, H2. }
  destruct ds as [|d ds']; [contradiction|].
  inversion Hd as [|? ? Hd0 _]; subst.
  assert (Hc : (digits_string (d :: ds') ++ ws2)%string =
               String (ascii_of_nat (48 + d)) (digits_string ds' ++ ws2)) by reflexivity.
  assert (Hnd : Ascii.eqb (ascii_of_nat (48 + d)) "+" = false /\
                Ascii.eqb (ascii_of_nat (48 + d)) "-" = false).
  { split; apply Bool.not_true_is_false; intros E; apply Ascii.eqb_eq in E;
      apply (f_equal nat_of_ascii) in E; rewrite digit_char in E by exact Hd0;
      cbn in E; lia. }
  pose proof (digit_not_space d Hd0) as Hsp.
  rewrite Hc in Hsc |- *.
  clear Hc. set (a := ascii_of_nat (48 + d)) in *. clearbody a.
  set (r := (digits_string ds' ++ ws2)%string) in *. clearbody r.
  destruct Hnd as [Hp Hm].
  destruct Hs as [<-|[<-|[<-|[]]]]; cbn [append].
  - rewrite lstrip_spaces_cons, Hsp, Hp, Hm. cbv beta iota zeta.
    revert Hsc. generalize (scan_decimal (String a r) 0 0 false). intros o ->. rewrite H2. reflexivity.
  - rewrite lstrip_spaces_cons.
    replace (py_isspace "+") with false by reflexivity.
    replace (Ascii.eqb "+" "+") with true by reflexivity.
    replace (String.eqb "+" "-") with false by reflexivity.
    cbv beta iota zeta.
    rewrite Hsc, H2. reflexivity.
  - rewrite lstrip_spaces_cons.
    replace (py_isspace "-") with false by reflexivity.
    replace (Ascii.eqb "-" "+") with false by reflexivity.
    replace (Ascii.eqb "-" "-") with true by reflexivity.
    replace (String.eqb "-" "-") with true by reflexivity.
    cbv beta iota zeta.
    rewrite Hsc, H2. reflexivity.
Qed.

Lemma int_reads_decimal_literals_witness :
  all_spaces " " = true /\ all_spaces "  " = true /\ In "-"%string [""; "+"; "-"]%string /\
  [0; 4; 2]%nat <> [] /\ Forall (fun d => d < 10)%nat [0; 4; 2]%nat /\
  py_int " -042  " = Some (-42).
Proof.
  assert (H1 : all_spaces " " = true) by reflexivity.
  assert (H2 : all_spaces "  " = true) by reflexivity.
  assert (H3 : In "-"%string [""; "+"; "-"]%string) by (right; right; left; reflexivity).
  assert (H4 : [0; 4; 2]%nat <> []) by discriminate.
  assert (H5 : Forall (fun d => d < 10)%nat [0; 4; 2]%nat)
    by (repeat apply Forall_cons; try apply Forall_nil; lia).
  do 5 (split; [assumption|]).
  exact (int_reads_decimal_literals " " "  " "-" [0; 4; 2]%nat H1 H2 H3 H4 H5).
Defined.

Lemma load_references_outcome folder l :
  forall acc s, match fst (load_references folder l acc s) with
  | inl e => references_open l = false /\ e = UnidentifiedImage
  | inr _ => references_open l = true
  end.
Proof.
  induction l as [|[f o] l IH]; intros acc s; [reflexivity|].
  cbn [load_references references_open forallb fst snd].
  destruct (is_reference_name f) eqn:Ef; cbn [negb orb].
  - destruct o as [|p]; [split; reflexivity|].
    cbv [bind image_open ret result_init]. apply IH.
  - apply IH.
Qed.

Lemma in_keys_set_iff {V} n k (v : V) d :
  In n (map fst (dict_set k v d)) <-> n = k \/ In n (map fst d).
Proof.
  split; [apply in_keys_set|].
  induction d as [|[k0 v0] d IH]; cbn [dict_set map fst In].
  - intros [H|[]]; left; auto.
  - destruct (String.eqb k k0) eqn:E; cbn [map fst In].
    + apply String.eqb_eq in E; subst. intros [H|[H|H]]; auto.
    + intros [H|[H|H]]; auto.
Qed.

Lemma load_references_state folder l : forall acc s,
  st_log (snd (load_references folder l acc s)) = st_log s /\
  (forall n, In n (keys (st_result (snd (load_references folder l acc s)))) <->
             In n (keys (st_result s)) \/ In n (ref_paths folder (opened_prefix l))) /\
  (Forall (fun p => snd p = []) (st_result s) ->
   Forall (fun p => snd p = []) (st_result (snd (load_references folder l acc s)))).
Proof.
  induction l as [|[f o] l IH]; intros acc s.
  - cbn. split; [reflexivity|split; [tauto|auto]].
  - destruct (is_reference_name f) eqn:Ef.
    + destruct o as [|p].
      * assert (Hl : load_references folder ((f, OpenFails) :: l) acc s =
                     (inl UnidentifiedImage, s)) by (cbn [load_references opened_prefix filter map fst]; rewrite Ef; reflexivity).
        assert (Hp : ref_paths folder (opened_prefix ((f, OpenFails) :: l)) = [])
          by (cbn [load_references opened_prefix filter map fst]; rewrite Ef; reflexivity).
        rewrite Hl, Hp. cbn [snd In]. split; [reflexivity|split; [tauto|auto]].
      * assert (Hl : load_references folder ((f, Opened p) :: l) acc s =
                     load_references folder l (dict_set (os_path_join folder f) p acc)
                       (mkState (dict_set (os_path_join folder f) [] (st_result s)) (st_log s)))
          by (cbn [load_references opened_prefix filter map fst]; rewrite Ef; reflexivity).
        assert (Hp : ref_paths folder (opened_prefix ((f, Opened p) :: l)) =
                     os_path_join folder f :: ref_paths folder (opened_prefix l))
          by (unfold ref_paths; cbn [load_references opened_prefix filter map fst]; rewrite !Ef; cbn [load_references opened_prefix filter map fst]; rewrite ?Ef; reflexivity).
        rewrite Hl, Hp.
        destruct (IH (dict_set (os_path_join folder f) p acc)
                    (mkState (dict_set (os_path_join folder f) [] (st_result s)) (st_log s)))
          as [H1 [H2 H3]].
        split; [exact H1|split].
        -- intros n. rewrite H2. unfold keys. cbn [st_result]. rewrite in_keys_set_iff.
           cbn [In]. intuition (subst; auto).
        -- intros H0. apply H3. apply dict_set_empty_lists. exact H0.
    + assert (Hl : load_references folder ((f, o) :: l) acc s = load_references folder l acc s)
        by (cbn [load_references opened_prefix filter map fst]; rewrite Ef; reflexivity).
      assert (Hp : ref_paths folder (opened_prefix ((f, o) :: l)) =
                   ref_paths folder (opened_prefix l)).
      { unfold ref_paths. destruct o; cbn [load_references opened_prefix filter map fst]; rewrite !Ef; cbn [filter fst]; rewrite Ef; reflexivity. }
      rewrite Hl, Hp. apply IH.
Qed.

Lemma final_report_empty r :
  Forall (fun p => snd p = []) r ->
  final_report r = [if Nat.eqb (length r) 0 then NoSimilar else FinalReport].
Proof.
  intros H. unfold final_report.
  replace (concat _) with (@nil event).
  - destruct (Nat.eqb (length r) 0); reflexivity.
  - induction H as [|[k v] r Hv H IH]; [reflexivity|].
    cbn [snd] in Hv; subst v. cbn. exact IH.
Qed.

(** X9: when the reference folder cannot be listed, or [Image.open]
    refuses one of its image files, the run ends normally (exit code 0)
    without scanning: the output is the parse notice, the loading error
    and the report header, and [result] holds, each with an empty list,
    the references loaded before the failure. *)
Theorem loading_failure_skips_scan en folder T out t :
  fs_root en = Some t ->
  match ref_listing en with None => True | Some l => references_open l = false end ->
  exit_code (main en folder T out) = 0%nat /\
  output (main en folder T out) =
    [ParseCompleted; ErrLoading;
     if Nat.eqb (length (final_result (main en folder T out))) 0
     then NoSimilar else FinalReport] /\
  Forall (fun p => snd p = []) (final_result (main en folder T out)) /\
  (forall k, In k (keys (final_result (main en folder T out))) <->
             In k (ref_paths folder (match ref_listing en with
                                     | None => [] | Some l => opened_prefix l end))).
Proof.
  intros Hfs Hl. destruct (ref_listing en) as [l|] eqn:El.
  - pose proof (load_references_outcome folder l [] (mkState [] [ParseCompleted])) as Ho.
    destruct (load_references_state folder l [] (mkState [] [ParseCompleted])) as [H1 [H2 H3]].
    destruct (load_references folder l [] (mkState [] [ParseCompleted])) as [[e|refs] s1] eqn:Hload;
      cbn [fst snd] in Ho, H1, H2, H3; [|congruence].
    assert (Hm : main en folder T out =
                 mkOutcome 0 (st_log s1 ++ [ErrLoading] ++ final_report (st_result s1))
                   (st_result s1)).
    { unfold main, find_similar_images. rewrite Hfs, El.
      cbv [bind ret emit try_except raise].
      change (mkState (st_result (mkState [] [])) (st_log (mkState [] []) ++ [ParseCompleted]))
        with (mkState [] [ParseCompleted]).
      rewrite Hload. cbn [st_log st_result]. rewrite <- app_assoc. reflexivity. }
    rewrite Hm. cbn [exit_code output final_result].
    assert (He : Forall (fun p => snd p = []) (st_result s1)) by (apply H3; constructor).
    rewrite final_report_empty by exact He. rewrite H1.
    split; [reflexivity|split; [reflexivity|split; [exact He|]]].
    intros k. rewrite H2. cbn. tauto.
  - unfold main, find_similar_images. rewrite Hfs, El. cbn.
    split; [reflexivity|split; [reflexivity|split; [constructor|]]].
    intros k. cbn. tauto.
Qed.

Lemma loading_failure_skips_scan_witness :
  let en := mkEnv (Some scenario_tree)
              (Some [("ref1.jpg", Opened (Some ref_img)); ("broken.png", OpenFails)]%string)
              (fun _ _ => true) example_call_frames in
  fs_root en = Some scenario_tree /\
  references_open [("ref1.jpg", Opened (Some ref_img)); ("broken.png", OpenFails)]%string = false /\
  exit_code (main en "refs" 10 "") = 0%nat /\
  output (main en "refs" 10 "") =
    [ParseCompleted; ErrLoading;
     if Nat.eqb (length (final_result (main en "refs" 10 ""))) 0
     then NoSimilar else FinalReport] /\
  Forall (fun p => snd p = []) (final_result (main en "refs" 10 "")) /\
  (forall k, In k (keys (final_result (main en "refs" 10 ""))) <->
             In k (ref_paths "refs" (opened_prefix
               [("ref1.jpg", Opened (Some ref_img)); ("broken.png", OpenFails)]%string))).
Proof.
  intros en. split; [reflexivity|split; [reflexivity|]].
  exact (loading_failure_skips_scan en "refs" 10 "" scenario_tree eq_refl eq_refl).
Defined.

Lemma Forall_zip_with {A B C} (P : C -> Prop) (f : A -> B -> C) l1 l2 :
  (forall a b, P (f a b)) -> Forall P (zip_with f l1 l2).
Proof.
  intros H. revert l2; induction l1 as [|a l1 IH]; intros [|b l2]; cbn; constructor; auto.
Qed.

Lemma Forall_concat' {A} (P : A -> Prop) (ll : list (list A)) :
  Forall (Forall P) ll -> Forall P (concat ll).
Proof.
  induction 1 as [|l ll Hl _ IH]; cbn; [constructor|]. apply Forall_app; auto.
Qed.

Lemma clip8_range v : 0 <= clip8 v <= 255.
Proof. unfold clip8. destruct (Z.leb_spec v 0); [lia|]. destruct (Z.leb_spec 255 v); lia. Qed.

Lemma chop_difference_range i1 i2 d :
  chop_difference i1 i2 = inr d -> Forall (fun v => 0 <= v <= 255) (samples d).
Proof.
  unfold chop_difference. destruct (negb _); [discriminate|]. destruct (negb _); [discriminate|].
  intros H. injection H as <-. unfold samples. cbn [im_rows].
  apply Forall_concat', Forall_concat'.
  apply Forall_zip_with. intros r1 r2. apply Forall_zip_with. intros p1 p2.
  apply Forall_zip_with. intros x y. apply clip8_range.
Qed.

Lemma sum_range xs :
  Forall (fun v => 0 <= v <= 255) xs ->
  0 <= fold_right Z.add 0 xs <= 255 * Z.of_nat (List.length xs).
Proof. induction 1 as [|x xs Hx _ IH]; cbn [fold_right List.length]; lia. Qed.

Lemma np_mean_range d :
  Forall (fun v => 0 <= v <= 255) (samples d) ->
  np_mean d = NaN \/ exists q, np_mean d = Num q /\ (0 <= q)%Q /\ (q <= 255)%Q.
Proof.
  intros H. unfold np_mean. pose proof (sum_range _ H) as Hs.
  destruct (List.length (samples d)) as [|k] eqn:El; [left; reflexivity|right].
  eexists; split; [reflexivity|].
  assert (Hp : Zpos (Pos.of_nat (S k)) = Z.of_nat (S k)).
  { rewrite <- positive_nat_Z, Nat2Pos.id by discriminate. reflexivity. }
  unfold Qle; cbn [Qnum Qden]. rewrite Hp. lia.
Qed.

Lemma score_range img1 img2 md :
  score img1 img2 = inr md ->
  md = NaN \/ exists q, md = Num q /\ (0 <= q)%Q /\ (q <= 255)%Q.
Proof.
  unfold score, difference_outcome. destruct img2 as [i2|]; [|discriminate].
  destruct img1 as [i1|]; [|discriminate].
  destruct (chop_difference i2 i1) as [e|d] eqn:E; [discriminate|].
  intros H; injection H as <-. apply np_mean_range. exact (chop_difference_range _ _ _ E).
Qed.

Lemma score_errors img1 img2 e :
  score img1 img2 = inl e -> e = LoadError \/ e = ModeError \/ e = Mismatch.
Proof.
  unfold score, difference_outcome, chop_difference.
  destruct img2 as [i2|]; [|intros H; injection H as <-; auto].
  destruct img1 as [i1|]; [|intros H; injection H as <-; auto].
  destruct (negb _); [intros H; injection H as <-; auto|].
  destruct (negb _); [intros H; injection H as <-; auto|discriminate].
Qed.

(** X11: [img_similarity_check] leaves the state alone; it raises only
    [LoadError] (an image fails to decode), a mode error (not 8-bit) or a
    size/band mismatch; otherwise [mean_diff] is NaN or a number between 0
    and 255, [is_similar] holds exactly for a number below the threshold,
    so a threshold of 0 or less never matches and one above 255 matches
    every non-NaN score. *)
Theorem similarity_check_outcomes img1 img2 T s :
  snd (img_similarity_check img1 img2 T s) = s /\
  match fst (img_similarity_check img1 img2 T s) with
  | inl e => e = LoadError \/ e = ModeError \/ e = Mismatch
  | inr (is_similar, mean_diff) =>
      (mean_diff = NaN \/ exists q, mean_diff = Num q /\ (0 <= q)%Q /\ (q <= 255)%Q) /\
      (is_similar = true <-> exists q, mean_diff = Num q /\ (q < inject_Z T)%Q) /\
      (T <= 0 -> is_similar = false) /\
      (255 < T -> mean_diff <> NaN -> is_similar = true)
  end.
Proof.
  rewrite img_similarity_check_eq. cbn [fst snd]. split; [reflexivity|].
  destruct (score img1 img2) as [e|md] eqn:Hs; [exact (score_errors _ _ _ Hs)|].
  pose proof (score_range _ _ _ Hs) as Hr.
  split; [exact Hr|]. split; [apply py_lt_spec|].
  split.
  - intros HT. apply Bool.not_true_is_false. intros H.
    apply py_lt_spec in H. destruct H as [q [-> Hq]].
    destruct Hr as [Hr|[q' [Hq' [H0 _]]]]; [discriminate|]. injection Hq' as <-.
    assert (Hle : (inject_Z T <= 0)%Q) by (unfold Qle; cbn; lia).
    apply (Qlt_irrefl 0). apply Qle_lt_trans with q; [exact H0|].
    apply Qlt_le_trans with (inject_Z T); assumption.
  - intros HT Hn. apply py_lt_spec.
    destruct Hr as [Hr|[q [-> [_ H255]]]]; [contradiction|].
    exists q. split; [reflexivity|].
    apply Qle_lt_trans with (255 # 1); [exact H255|]. unfold Qlt; cbn. lia.
Qed.

Lemma recs_refl T s : recs_pres T s s.
Proof. unfold recs_pres; auto. Qed.

Lemma recs_trans T s1 s2 s3 : recs_pres T s1 s2 -> recs_pres T s2 s3 -> recs_pres T s1 s3.
Proof. unfold recs_pres; auto. Qed.

Lemma records_ok_set T k v r :
  records_ok T r -> Forall (record_ok T) v -> records_ok T (dict_set k v r).
Proof.
  unfold records_ok. induction r as [|[k0 v0] r IH]; cbn [dict_set]; intros Hr Hv.
  - constructor; auto.
  - inversion Hr as [|? ? H0 H1]; subst.
    destruct (String.eqb k k0); constructor; auto.
Qed.

Lemma records_ok_lookup T k r l :
  records_ok T r -> dict_lookup k r = Some l -> Forall (record_ok T) l.
Proof.
  unfold records_ok. induction r as [|[k0 v0] r IH]; cbn [dict_lookup]; [discriminate|].
  intros Hr. inversion Hr as [|? ? H0 H1]; subst.
  destruct (String.eqb k k0); [intros H; injection H as <-; exact H0|auto].
Qed.

Lemma recs_emit T ev : Inv (recs_pres T) (emit ev).
Proof. intros s. unfold recs_pres, emit. auto. Qed.

Lemma recs_append T k x : record_ok T x -> Inv (recs_pres T) (result_append k x).
Proof.
  intros Hx s. unfold recs_pres, result_append.
  destruct (dict_lookup k (st_result s)) as [l|] eqn:E; cbn [snd st_result]; [|auto].
  intros Hr. apply records_ok_set; [exact Hr|].
  apply Forall_app; split; [exact (records_ok_lookup _ _ _ _ Hr E)|constructor; auto].
Qed.

Lemma recs_compare en name location image T out r :
  is_candidate_location location = true ->
  Inv (recs_pres T) (compare_with_reference en name location image T out r).
Proof.
  intros Hc s. destruct r as [rn ri]. unfold compare_with_reference. unfold bind at 1.
  rewrite img_similarity_check_eq.
  destruct (score image ri) as [e|md] eqn:Hs; [apply recs_refl|].
  cbv beta iota. destruct (py_lt md T) eqn:Hlt; [|apply recs_refl].
  refine (inv_bind (recs_pres T) (recs_refl T) (recs_trans T) _ _ _ _ s).
  - apply recs_append. split; [exact Hc|].
    apply py_lt_spec in Hlt. destruct Hlt as [q [-> Hq]].
    destruct (score_range _ _ _ Hs) as [H|[q' [Hq' [H0 H1]]]]; [discriminate|].
    injection Hq' as <-. exists q. auto.
  - intros _. apply (inv_bind _ (recs_refl T) (recs_trans T)); [apply recs_emit|intros _].
    destruct (negb _); [|apply (inv_ret _ (recs_refl T) (recs_trans T))].
    apply (inv_pure _ (recs_refl T)), pure_image_save.
Qed.

Lemma recs_is_image_similar en n l fo refs T out :
  Inv (recs_pres T) (is_image_similar en n l fo refs T out).
Proof.
  unfold is_image_similar.
  apply (inv_try _ (recs_refl T) (recs_trans T)); [|intros e; apply recs_emit].
  destruct (is_candidate_location l) eqn:Hc; cbn [negb]; [|apply (inv_ret _ (recs_refl T) (recs_trans T))].
  destruct fo as [o|]; [|apply (inv_ret _ (recs_refl T) (recs_trans T))].
  apply (inv_bind _ (recs_refl T) (recs_trans T));
    [apply (inv_pure _ (recs_refl T)), pure_image_open|intros image].
  apply (inv_for_each _ (recs_refl T) (recs_trans T)). intros r.
  apply recs_compare, Hc.
Qed.

Lemma recs_traverse en refs T out :
  forall e b, Inv (recs_pres T) (traverse_file_entries en b e refs T out).
Proof.
  intros e. induction e as [n l fo | n l kids IHk | n l] using FileEntry_ind';
    intros [|b]; try apply (inv_raise _ (recs_refl T) (recs_trans T));
    destruct (Nat.ltb b (call_frames en)) eqn:Ec;
    try (apply (inv_ext _ _ _ (fun s => traverse_overflow _ _ _ _ _ _ s Ec));
         apply (inv_raise _ (recs_refl T) (recs_trans T))).
  - cbn [traverse_file_entries]. rewrite Ec.
    destruct b as [|b]; [apply (inv_raise _ (recs_refl T) (recs_trans T))|].
    apply (inv_bind _ (recs_refl T) (recs_trans T)); [apply recs_emit|intros _].
    destruct (Nat.ltb b (call_frames en)); [apply (inv_raise _ (recs_refl T) (recs_trans T))|].
    apply recs_is_image_similar.
  - apply (inv_ext _ _ _ (fun s => traverse_dir en b n l kids refs T out s Ec)).
    apply (inv_for_each_in _ (recs_refl T) (recs_trans T)). intros k Hin.
    rewrite Forall_forall in IHk. apply (IHk k Hin b).
  - cbn [traverse_file_entries]. rewrite Ec. apply (inv_raise _ (recs_refl T) (recs_trans T)).
Qed.

Lemma recs_load_references T folder l acc :
  Inv (recs_pres T) (load_references folder l acc).
Proof.
  revert acc; induction l as [|[f o] l IH]; intros acc; cbn [load_references].
  - apply (inv_ret _ (recs_refl T) (recs_trans T)).
  - destruct (is_reference_name f); [|apply IH].
    apply (inv_bind _ (recs_refl T) (recs_trans T));
      [apply (inv_pure _ (recs_refl T)), pure_image_open|intros image].
    apply (inv_bind _ (recs_refl T) (recs_trans T)); [|intros _; apply IH].
    intros s Hr. apply records_ok_set; [exact Hr|constructor].
Qed.

(** X10: every record [find_similar_images] leaves in [result] is a
    location with an image extension paired with a score between 0 and
    255 below the threshold, whatever happens during the run. *)
Theorem final_records_within_threshold en folder T out :
  records_ok T (final_result (main en folder T out)).
Proof.
  assert (H : Inv (recs_pres T) (find_similar_images en folder T out)).
  { unfold find_similar_images.
    apply (inv_bind _ (recs_refl T) (recs_trans T)).
    { destruct (fs_root en); [apply (inv_ret _ (recs_refl T) (recs_trans T))|apply (inv_raise _ (recs_refl T) (recs_trans T))]. }
    intros t. apply (inv_bind _ (recs_refl T) (recs_trans T)); [apply recs_emit|intros _].
    apply (inv_bind _ (recs_refl T) (recs_trans T)).
    - apply (inv_try _ (recs_refl T) (recs_trans T)).
      + apply (inv_bind _ (recs_refl T) (recs_trans T)).
        { destruct (ref_listing en); [apply (inv_ret _ (recs_refl T) (recs_trans T))|apply (inv_raise _ (recs_refl T) (recs_trans T))]. }
        intros l. apply (inv_bind _ (recs_refl T) (recs_trans T));
          [apply recs_load_references|intros refs; apply (inv_ret _ (recs_refl T) (recs_trans T))].
      + intros e. apply (inv_bind _ (recs_refl T) (recs_trans T));
          [apply recs_emit|intros _; apply (inv_ret _ (recs_refl T) (recs_trans T))].
    - intros [refs|]; [|apply (inv_ret _ (recs_refl T) (recs_trans T))].
      do 3 (apply (inv_bind _ (recs_refl T) (recs_trans T)); [apply recs_emit|intros _]).
      apply (inv_bind _ (recs_refl T) (recs_trans T));
        [apply recs_traverse|intros _; apply (inv_ret _ (recs_refl T) (recs_trans T))]. }
  specialize (H (mkState [] [])). unfold main.
  destruct (find_similar_images en folder T out (mkState [] [])) as [[e|o] s'];
    cbn [final_result snd] in H |- *; apply H; constructor.
Qed.

Lemma rfind_aux_app c s1 s2 : forall i acc,
  rfind_aux c (s1 ++ s2) i acc =
  rfind_aux c s2 (i + Z.of_nat (String.length s1)) (rfind_aux c s1 i acc).
Proof.
  induction s1 as [|d s1 IH]; intros i acc; cbn [append rfind_aux String.length].
  - rewrite Z.add_0_r. reflexivity.
  - rewrite IH. f_equal. lia.
Qed.

Lemma rfind_aux_absent c s : forall i acc,
  ~ In c (list_ascii_of_string s) -> rfind_aux c s i acc = acc.
Proof.
  induction s as [|d s IH]; intros i acc H; cbn [rfind_aux]; [reflexivity|].
  cbn [list_ascii_of_string In] in H.
  destruct (Ascii.eqb c d) eqn:E; [apply Ascii.eqb_eq in E; subst; tauto|].
  apply IH. tauto.
Qed.

Lemma rfind_aux_last c s : forall i acc,
  ~ In c (list_ascii_of_string s) -> rfind_aux c (String c s) i acc = i.
Proof.
  intros i acc H. cbn [rfind_aux]. rewrite Ascii.eqb_refl. apply rfind_aux_absent, H.
Qed.

Lemma str_get_app_right n s1 s2 :
  String.get (String.length s1 + n) (s1 ++ s2) = String.get n s2.
Proof. induction s1 as [|d s1 IH]; cbn; auto. Qed.

Lemma str_substring_app_right n m s1 s2 :
  substring (String.length s1 + n) m (s1 ++ s2) = substring n m s2.
Proof. induction s1 as [|d s1 IH]; cbn; auto. Qed.

Lemma substring_all s : substring 0 (String.length s) s = s.
Proof. induction s as [|d s IH]; cbn; [reflexivity|]. rewrite IH. reflexivity. Qed.

Lemma str_length_app s1 s2 :
  String.length (s1 ++ s2) = (String.length s1 + String.length s2)%nat.
Proof. induction s1; cbn; auto. Qed.

Lemma list_ascii_app s1 s2 :
  list_ascii_of_string (s1 ++ s2) = list_ascii_of_string s1 ++ list_ascii_of_string s2.
Proof. induction s1; cbn; f_equal; auto. Qed.

Lemma str_app_assoc s1 s2 s3 : ((s1 ++ s2) ++ s3 = s1 ++ s2 ++ s3)%string.
Proof. induction s1; cbn; f_equal; auto. Qed.

Lemma splitext_ext_named dir c base e :
  c <> "."%char -> ~ In "/"%char (list_ascii_of_string (String c base)) ->
  ~ In "/"%char (list_ascii_of_string e) -> ~ In "."%char (list_ascii_of_string e) ->
  splitext_ext (dir ++ String "/" (String c (base ++ String "." e))) = String "." e.
Proof.
  intros Hc Hb He1 He2.
  set (pre := (dir ++ String "/" (String c base))%string).
  assert (Hp : (dir ++ String "/" (String c (base ++ String "." e)))%string =
               (pre ++ String "." e)%string).
  { unfold pre. rewrite str_app_assoc. reflexivity. }
  assert (Hsep : rfind "/" (dir ++ String "/" (String c (base ++ String "." e))) =
                 Z.of_nat (String.length dir)).
  { unfold rfind. rewrite rfind_aux_app, rfind_aux_last; [lia|].
    cbn [list_ascii_of_string] in Hb |- *. rewrite list_ascii_app. cbn [list_ascii_of_string].
    intros [H|H]; [apply Hb; left; exact H|]. apply in_app_iff in H.
    destruct H as [H|[H|H]]; [apply Hb; right; exact H|discriminate H|exact (He1 H)]. }
  assert (Hdot : rfind "." (dir ++ String "/" (String c (base ++ String "." e))) =
                 Z.of_nat (String.length pre)).
  { rewrite Hp. unfold rfind. rewrite rfind_aux_app, rfind_aux_last by exact He2. lia. }
  assert (Hpre : String.length pre = (String.length dir + 2 + String.length base)%nat).
  { unfold pre. rewrite str_length_app. cbn [String.length]. lia. }
  unfold splitext_ext. rewrite Hsep, Hdot, Hpre.
  rewrite (proj2 (Z.ltb_lt _ _)) by lia.
  replace (String.length (dir ++ String "/" (String c (base ++ String "." e))))
    with (S (S (S (String.length dir + String.length base + String.length e))))
    by (rewrite str_length_app; cbn [String.length]; rewrite str_length_app; cbn [String.length]; lia).
  cbv beta iota zeta.
  rewrite (proj2 (Z.ltb_lt _ _)) by lia.
  unfold char_at.
  replace (Z.to_nat (Z.of_nat (String.length dir) + 1)) with (String.length dir + 1)%nat by lia.
  rewrite str_get_app_right. cbn [String.get].
  destruct (Ascii.eqb c ".") eqn:E; [apply Ascii.eqb_eq in E; contradiction|].
  rewrite Hp, Nat2Z.id.
  replace (S (S (S (String.length dir + String.length base + String.length e))) -
           (String.length dir + 2 + String.length base))%nat
    with (String.length (String "." e)) by (cbn [String.length]; lia).
  rewrite <- Hpre.
  rewrite <- (Nat.add_0_r (String.length pre)) at 1.
  rewrite str_substring_app_right, substring_all. reflexivity.
Qed.

Lemma splitext_ext_dotfile dir e :
  ~ In "/"%char (list_ascii_of_string e) -> ~ In "."%char (list_ascii_of_string e) ->
  splitext_ext (dir ++ String "/" (String "." e)) = EmptyString.
Proof.
  intros He1 He2.
  assert (Hsep : rfind "/" (dir ++ String "/" (String "." e)) = Z.of_nat (String.length dir)).
  { unfold rfind. rewrite rfind_aux_app, rfind_aux_last; [lia|].
    cbn [list_ascii_of_string]. intros [H|H]; [discriminate H|exact (He1 H)]. }
  assert (Hdot : rfind "." (dir ++ String "/" (String "." e)) = Z.of_nat (String.length dir) + 1).
  { unfold rfind. rewrite rfind_aux_app. cbn [rfind_aux].
    rewrite Ascii.eqb_refl. rewrite rfind_aux_absent by exact He2. reflexivity. }
  unfold splitext_ext. rewrite Hsep, Hdot.
  rewrite (proj2 (Z.ltb_lt _ _)) by lia.
  replace (String.length (dir ++ String "/" (String "." e)))
    with (S (S (String.length dir + String.length e)))
    by (rewrite str_length_app; cbn [String.length]; lia).
  cbv beta iota zeta.
  rewrite (proj2 (Z.ltb_ge _ _)) by lia. reflexivity.
Qed.

(** X13: the extension test of [is_image_similar] looks at the text from
    the last dot of the base name, case-insensitively: a name with a
    non-dot first character and extension [e] is a candidate exactly when
    the lowercased ".e" is one of the six extensions, while a hidden file
    named just ".e" has no extension and is never a candidate. *)
Theorem candidate_by_last_extension dir c base e :
  ~ In "/"%char (list_ascii_of_string e) -> ~ In "."%char (list_ascii_of_string e) ->
  (c <> "."%char -> ~ In "/"%char (list_ascii_of_string (String c base)) ->
   is_candidate_location (dir ++ "/" ++ String c base ++ "." ++ e) =
   existsb (String.eqb (lower ("." ++ e))) valid_image_extensions) /\
  is_candidate_location (dir ++ "/" ++ "." ++ e) = false.
Proof.
  intros He1 He2. cbn [append]. split.
  - intros Hc Hb. unfold is_candidate_location.
    rewrite splitext_ext_named by assumption. reflexivity.
  - unfold is_candidate_location. rewrite splitext_ext_dotfile by assumption. reflexivity.
Qed.

Lemma candidate_by_last_extension_witness :
  ~ In "/"%char (list_ascii_of_string "JPG") /\ ~ In "."%char (list_ascii_of_string "JPG") /\
  "a"%char <> "."%char /\ ~ In "/"%char (list_ascii_of_string "album.v2") /\
  is_candidate_location "/pics/album.v2.JPG" = true /\
  is_candidate_location "/pics/.JPG" = false.
Proof.
  assert (H1 : ~ In "/"%char (list_ascii_of_string "JPG")) by (cbn; intuition discriminate).
  assert (H2 : ~ In "."%char (list_ascii_of_string "JPG")) by (cbn; intuition discriminate).
  assert (H3 : "a"%char <> "."%char) by discriminate.
  assert (H4 : ~ In "/"%char (list_ascii_of_string "album.v2")) by (cbn; intuition discriminate).
  destruct (candidate_by_last_extension "/pics" "a" "lbum.v2" "JPG" H1 H2) as [Hn Hd].
  do 4 (split; [assumption|]). split.
  - exact (eq_trans (Hn H3 H4) eq_refl).
  - exact Hd.
Defined.

Lemma lower_app s1 s2 : lower (s1 ++ s2) = (lower s1 ++ lower s2)%string.
Proof. induction s1; cbn; f_equal; auto. Qed.

Lemma length_lower s : String.length (lower s) = String.length s.
Proof. induction s; cbn; auto. Qed.

Lemma lower_substring s : forall n m, lower (substring n m s) = substring n m (lower s).
Proof.
  induction s as [|c s IH]; intros [|n] [|m]; cbn; auto. f_equal. apply (IH 0%nat).
Qed.

Lemma substring_split s : forall k, (k <= String.length s)%nat ->
  (substring 0 k s ++ substring k (String.length s - k) s)%string = s.
Proof.
  induction s as [|c s IH]; intros [|k] Hk; cbn in Hk |- *.
  - reflexivity.
  - lia.
  - rewrite substring_all. reflexivity.
  - f_equal. apply IH. lia.
Qed.

Lemma endswith_app s x : endswith (s ++ x) x = true.
Proof.
  unfold endswith. rewrite str_length_app.
  replace (String.length s + String.length x - String.length x)%nat
    with (String.length s + 0)%nat by lia.
  rewrite str_substring_app_right, substring_all, String.eqb_refl, andb_true_r.
  apply Nat.leb_le. lia.
Qed.

(** X14: the reference-folder filter of [find_similar_images] keeps
    exactly the file names that end, in any letter case, with one of the
    six extensions; a name that is only an extension, like ".jpg", is
    kept too. *)
Theorem reference_name_iff_suffix f :
  is_reference_name f = true <->
  exists s x, f = (s ++ x)%string /\ In (lower x) valid_image_extensions.
Proof.
  unfold is_reference_name. rewrite existsb_exists. split.
  - intros [ext [Hin He]]. unfold endswith in He. apply andb_true_iff in He.
    destruct He as [Hl He]. apply Nat.leb_le in Hl. apply String.eqb_eq in He.
    rewrite length_lower in Hl, He.
    exists (substring 0 (String.length f - String.length ext) f),
           (substring (String.length f - String.length ext) (String.length ext) f).
    split.
    + pose proof (substring_split f (String.length f - String.length ext) ltac:(lia)) as Hs.
      replace (String.length f - (String.length f - String.length ext))%nat
        with (String.length ext) in Hs by lia.
      symmetry. exact Hs.
    + rewrite lower_substring, He. exact Hin.
  - intros [s [x [-> Hin]]]. exists (lower x). split; [exact Hin|].
    rewrite lower_app. apply endswith_app.
Qed.
